(** * The to-do list store of [src/app.ts]

    A shallow embedding of the class [TodoList] and of the record type
    [TodoItem], followed by the properties of the store.

    TypeScript objects and arrays are reference values: the array held in
    [this.todos] contains references to [TodoItem] objects, and the arrays
    handed out by [listTodos] and [filterTodos] contain references to the
    very same objects.  The embedding therefore keeps an explicit heap:
    one region for [TodoItem] objects and one for arrays of references,
    both addressed by allocation index.  Nothing is ever deallocated.

    The specification names the methods differently: its [create] is
    [addTodo], [markCompleted] is [completeTodo], [toggleCompleted] is
    [toggleTodo], [remove] is [removeTodo], [list] is [listTodos],
    [filterByCompletion] is [filterTodos], [updateDescription] is
    [updateTodoTask] and [updateDueDate] is [updateTodoDueDate].

    A TypeScript [number] that holds an identifier is modelled by [Z]
    (identifiers are whole numbers; the model does not cover counters
    beyond the 2^53 range in which a double counts exactly).  A [Date] is
    modelled by its time value. *)

From stdpp Require Import base list strings pretty sorting.

Open Scope Z_scope.

(** ** Data model *)

(** A reference is an index into one of the two heap regions. *)
Definition ref := nat.

(** The time value of a [Date] object (milliseconds since the epoch). *)
Definition Date := Z.

(** [interface TodoItem]. [dueDate : Date | null] is an [option]. *)
Record TodoItem := mkTodoItem {
  id : Z;
  task : string;
  completed : bool;
  dueDate : option Date
}.

#[global] Instance TodoItem_eq_dec : EqDecision TodoItem.
Proof. solve_decision. Defined.

(** What a read through a dangling reference yields in the model; no
    reference held by a well-formed store is dangling (see [wf]). *)
#[global] Instance TodoItem_inhabited : Inhabited TodoItem :=
  populate (mkTodoItem 0 "" false None).

(** Field assignments [todo.completed = b], [todo.task = s],
    [todo.dueDate = d], [todo.id = n]. *)
Definition set_completed (b : bool) (t : TodoItem) : TodoItem :=
  mkTodoItem (id t) (task t) b (dueDate t).

Definition set_task (s : string) (t : TodoItem) : TodoItem :=
  mkTodoItem (id t) s (completed t) (dueDate t).

Definition set_dueDate (d : option Date) (t : TodoItem) : TodoItem :=
  mkTodoItem (id t) (task t) (completed t) d.

Definition set_id (n : Z) (t : TodoItem) : TodoItem :=
  mkTodoItem n (task t) (completed t) (dueDate t).

(** The heap together with the two private fields of the one [TodoList]
    instance: [todos] is a reference to an array, [nextId] a number. *)
Record Store := mkStore {
  items : list TodoItem;
  arrays : list (list ref);
  todos : ref;
  nextId : Z
}.

(** [new Error(message)]. *)
Record JsError := mkError { message : string }.

#[global] Instance JsError_eq_dec : EqDecision JsError.
Proof. solve_decision. Defined.

(** [new Error(`Todo with id ${id} not found`)]. *)
Definition NotFound (n : Z) : JsError :=
  mkError ("Todo with id " +:+ pretty n +:+ " not found").

(** A method call either returns a value or throws; in both cases it
    leaves a store behind. *)
Inductive Result (A : Type) : Type :=
  | Ok (a : A) (s : Store)
  | Throw (e : JsError) (s : Store).

Arguments Ok {A} a s.
Arguments Throw {A} e s.

Definition store_of {A} (r : Result A) : Store :=
  match r with Ok _ s => s | Throw _ s => s end.

Definition error_of {A} (r : Result A) : option JsError :=
  match r with Ok _ _ => None | Throw e _ => Some e end.

(** ** Heap access *)

(** Reading an object and reading an array through a reference. *)
Definition deref (s : Store) (r : ref) : TodoItem := items s !!! r.

Definition array_at (s : Store) (a : ref) : list ref := arrays s !!! a.

(** The contents of [this.todos]: the references, in array order. *)
Definition stored (s : Store) : list ref := array_at s (todos s).

(** The records those references point to, in array order. *)
Definition tasks (s : Store) : list TodoItem := deref s <$> stored s.

Definition ids (s : Store) : list Z := id <$> tasks s.

(** Writing an object, writing an array (both in place), and allocating
    a new object or a new array at the end of its region. *)
Definition write_item (r : ref) (t : TodoItem) (s : Store) : Store :=
  mkStore (<[r := t]> (items s)) (arrays s) (todos s) (nextId s).

Definition write_array (a : ref) (l : list ref) (s : Store) : Store :=
  mkStore (items s) (<[a := l]> (arrays s)) (todos s) (nextId s).

Definition alloc_item (t : TodoItem) (s : Store) : ref * Store :=
  (length (items s),
   mkStore (items s ++ [t]) (arrays s) (todos s) (nextId s)).

Definition alloc_array (l : list ref) (s : Store) : ref * Store :=
  (length (arrays s),
   mkStore (items s) (arrays s ++ [l]) (todos s) (nextId s)).

(** ** The class [TodoList] *)

(** [new TodoList()]: the field initialisers allocate the empty array and
    set the counter to 1. *)
Definition empty_heap : Store := mkStore [] [] 0%nat 0.

Definition new_TodoList : Store :=
  let '(a, s) := alloc_array [] empty_heap in
  mkStore (items s) (arrays s) a 1.

(** [this.todos.find(todo => todo.id === id)] and
    [this.todos.findIndex(todo => todo.id === id)]: the first position
    whose object carries the identifier, with the reference found there. *)
Definition find_todo (n : Z) (s : Store) : option (nat * ref) :=
  list_find (λ r, id (deref s r) = n) (stored s).

(** [addTodo(task, dueDate = null)]. *)
Definition addTodo (tsk : string) (due : option Date) (s : Store)
  : Result unit :=
  let n := nextId s in
  let s1 := mkStore (items s) (arrays s) (todos s) (n + 1) in
  let '(newTodo, s2) := alloc_item (mkTodoItem n tsk false due) s1 in
  Ok tt (write_array (todos s2) (stored s2 ++ [newTodo]) s2).

(** [completeTodo(id)]. *)
Definition completeTodo (n : Z) (s : Store) : Result unit :=
  match find_todo n s with
  | Some (_, todo) =>
      Ok tt (write_item todo (set_completed true (deref s todo)) s)
  | None => Throw (NotFound n) s
  end.

(** [toggleTodo(id)]. *)
Definition toggleTodo (n : Z) (s : Store) : Result unit :=
  match find_todo n s with
  | Some (_, todo) =>
      Ok tt (write_item todo
               (set_completed (negb (completed (deref s todo)))
                              (deref s todo)) s)
  | None => Throw (NotFound n) s
  end.

(** [removeTodo(id)]: [splice(index, 1)] deletes one position of the
    array in place. *)
Definition removeTodo (n : Z) (s : Store) : Result unit :=
  match find_todo n s with
  | Some (index, _) =>
      Ok tt (write_array (todos s) (delete index (stored s)) s)
  | None => Throw (NotFound n) s
  end.

(** [listTodos()]: the spread [[...this.todos]] builds a new array that
    holds the same references. *)
Definition listTodos (s : Store) : Result ref :=
  let '(a, s') := alloc_array (stored s) s in Ok a s'.

(** [filterTodos(completed)]: [filter] builds a new array. *)
Definition filterTodos (b : bool) (s : Store) : Result ref :=
  let '(a, s') :=
    alloc_array (filter (λ r, completed (deref s r) = b) (stored s)) s in
  Ok a s'.

(** [updateTodoTask(id, newTask)]. *)
Definition updateTodoTask (n : Z) (newTask : string) (s : Store)
  : Result unit :=
  match find_todo n s with
  | Some (_, todo) => Ok tt (write_item todo (set_task newTask (deref s todo)) s)
  | None => Throw (NotFound n) s
  end.

(** [updateTodoDueDate(id, newDueDate)]. *)
Definition updateTodoDueDate (n : Z) (newDueDate : option Date) (s : Store)
  : Result unit :=
  match find_todo n s with
  | Some (_, todo) =>
      Ok tt (write_item todo (set_dueDate newDueDate (deref s todo)) s)
  | None => Throw (NotFound n) s
  end.

(** [clearCompleted()]: the filtered array is a new one, and the field
    [this.todos] is made to point to it. *)
Definition clearCompleted (s : Store) : Result unit :=
  let '(a, s') :=
    alloc_array (filter (λ r, completed (deref s r) = false) (stored s)) s in
  Ok tt (mkStore (items s') (arrays s') a (nextId s')).

(** ** Sequences of calls *)

(** One call on the public interface of [TodoList]. *)
Inductive Op :=
  | AddTodo (tsk : string) (due : option Date)
  | CompleteTodo (n : Z)
  | ToggleTodo (n : Z)
  | RemoveTodo (n : Z)
  | ListTodos
  | FilterTodos (b : bool)
  | UpdateTodoTask (n : Z) (newTask : string)
  | UpdateTodoDueDate (n : Z) (newDueDate : option Date)
  | ClearCompleted.

(** What a call hands back: nothing ([void]) or a reference to an array. *)
Inductive Value :=
  | VVoid
  | VArray (a : ref).

Definition returning {A} (f : A → Value) (r : Result A) : Result Value :=
  match r with
  | Ok a s => Ok (f a) s
  | Throw e s => Throw e s
  end.

Definition exec (op : Op) (s : Store) : Result Value :=
  match op with
  | AddTodo tsk due => returning (λ _, VVoid) (addTodo tsk due s)
  | CompleteTodo n => returning (λ _, VVoid) (completeTodo n s)
  | ToggleTodo n => returning (λ _, VVoid) (toggleTodo n s)
  | RemoveTodo n => returning (λ _, VVoid) (removeTodo n s)
  | ListTodos => returning VArray (listTodos s)
  | FilterTodos b => returning VArray (filterTodos b s)
  | UpdateTodoTask n newTask => returning (λ _, VVoid) (updateTodoTask n newTask s)
  | UpdateTodoDueDate n d => returning (λ _, VVoid) (updateTodoDueDate n d s)
  | ClearCompleted => returning (λ _, VVoid) (clearCompleted s)
  end.

(** The store after one call; a caller that catches the error carries on
    with the store the throwing call left. *)
Definition step (s : Store) (op : Op) : Store := store_of (exec op s).

(** The store after a sequence of calls, oldest first. *)
Definition run (ops : list Op) (s : Store) : Store := foldl step s ops.

(** The stores reached from a new [TodoList] through its methods alone. *)
Definition reachable (s : Store) : Prop := ∃ ops, s = run ops new_TodoList.

(** ** Code outside the class *)

(** What a caller can do with an array it was handed: assign to the
    array itself (any [push], [splice], [sort], element or [length]
    assignment amounts to replacing its contents), or assign to a field
    of a record the array refers to. *)
Inductive Mutation :=
  | MutArray (a : ref) (l : list ref)
  | MutItem (r : ref) (t : TodoItem).

Definition mutate (m : Mutation) (s : Store) : Store :=
  match m with
  | MutArray a l => write_array a l s
  | MutItem r t => write_item r t s
  end.

(** A mutation through the array [a] that a query returned: it touches
    [a] itself, or a record that [a] referred to when it was returned. *)
Definition through (a : ref) (s : Store) (m : Mutation) : Prop :=
  match m with
  | MutArray a' _ => a' = a
  | MutItem r _ => r ∈ array_at s a
  end.

(** A mutation of the returned array itself, records left alone. *)
Definition on_array (a : ref) (m : Mutation) : Prop :=
  match m with
  | MutArray a' _ => a' = a
  | MutItem _ _ => False
  end.

(** ** Invariants *)

(** Heap well-formedness: [this.todos] is an allocated array, every
    reference in it is an allocated record, and no record occurs in it
    twice. *)
Record wf (s : Store) : Prop := mk_wf {
  wf_todos : (todos s < length (arrays s))%nat;
  wf_refs : Forall (λ r, (r < length (items s))%nat) (stored s);
  wf_nodup : NoDup (stored s)
}.

(** The identity invariant: the counter is positive, and the identifiers
    in the store are positive, below the counter, and strictly increasing
    along the array. *)
Definition increasing (l : list Z) : Prop := StronglySorted Z.lt l.

Record ids_ok (s : Store) : Prop := mk_ids_ok {
  ids_next : 1 ≤ nextId s;
  ids_pos : Forall (λ n, 1 ≤ n < nextId s) (ids s);
  ids_incr : increasing (ids s)
}.


Definition inv (s : Store) : Prop := wf s ∧ ids_ok s.

(** ** Observations on a sequence of calls *)

(** The identifier an id-keyed call is given. *)
Definition key (op : Op) : option Z :=
  match op with
  | CompleteTodo n | ToggleTodo n | RemoveTodo n
  | UpdateTodoTask n _ | UpdateTodoDueDate n _ => Some n
  | AddTodo _ _ | ListTodos | FilterTodos _ | ClearCompleted => None
  end.

(** The record a call puts into the store: for [addTodo], the one found
    at the end of the array afterwards. *)
Definition created_by (op : Op) (s : Store) : list ref :=
  match op with
  | AddTodo _ _ => option_list (last (stored (step s op)))
  | _ => []
  end.

(** The records a call is meant to take out of the store: for
    [removeTodo], those carrying the identifier; for [clearCompleted],
    those whose flag is set. *)
Definition removed_by (op : Op) (s : Store) : list ref :=
  match op with
  | RemoveTodo n => filter (λ r, id (deref s r) = n) (stored s)
  | ClearCompleted => filter (λ r, completed (deref s r) = true) (stored s)
  | _ => []
  end.

(** Along a sequence of calls: the records inserted, in insertion order;
    the records removed; the identifiers given out, in order. *)
Fixpoint inserted (ops : list Op) (s : Store) : list ref :=
  match ops with
  | [] => []
  | op :: ops' => created_by op s ++ inserted ops' (step s op)
  end.

Fixpoint removed (ops : list Op) (s : Store) : list ref :=
  match ops with
  | [] => []
  | op :: ops' => removed_by op s ++ removed ops' (step s op)
  end.

Fixpoint assigned (ops : list Op) (s : Store) : list Z :=
  match ops with
  | [] => []
  | op :: ops' =>
      ((λ r, id (deref (step s op) r)) <$> created_by op s)
      ++ assigned ops' (step s op)
  end.

Definition is_add (op : Op) : bool :=
  match op with AddTodo _ _ => true | _ => false end.

(** The number of [addTodo] calls in a sequence. *)
Definition adds (ops : list Op) : nat := length (filter is_add ops).

(** ** The snapshot requirement *)

(** A query [q] hands out a defensive snapshot when no mutation made
    through the array it returned can change the order of the store (the
    contents of its array) or break identity (the identifiers in the
    store stay pairwise distinct). *)
Definition defensive (q : Store → Result ref) : Prop :=
  ∀ s a s' m,
    inv s → q s = Ok a s' → through a s' m →
    stored (mutate m s') = stored s ∧ NoDup (ids (mutate m s')).

(** The same, for mutations of the returned array alone. *)
Definition shallow (q : Store → Result ref) : Prop :=
  ∀ s a s' ms,
    wf s → q s = Ok a s' → Forall (on_array a) ms →
    let s'' := foldl (flip mutate) s' ms in
    a ≠ todos s'' ∧ todos s'' = todos s ∧ stored s'' = stored s
    ∧ items s'' = items s ∧ nextId s'' = nextId s
    ∧ tasks s'' = tasks s ∧ wf s'' ∧ (ids_ok s → ids_ok s'').

(** ** The shape shared by the field-assigning methods *)

(** [completeTodo], [toggleTodo], [updateTodoTask] and [updateTodoDueDate]
    all look the record up and assign to one of its fields; [f] is the
    assignment. *)
Definition update_with (f : TodoItem → TodoItem) (n : Z) (s : Store)
  : Result unit :=
  match find_todo n s with
  | Some (_, todo) => Ok tt (write_item todo (f (deref s todo)) s)
  | None => Throw (NotFound n) s
  end.

Definition toggle (t : TodoItem) : TodoItem :=
  set_completed (negb (completed t)) t.

(** ** Deciding the invariants *)

#[global] Instance wf_dec (s : Store) : Decision (wf s).
Proof.
  refine (cast_if (decide ((todos s < length (arrays s))%nat
                           ∧ Forall (λ r, (r < length (items s))%nat) (stored s)
                           ∧ NoDup (stored s))));
    first [split; tauto | intros [? ? ?]; tauto].
Defined.

#[global] Instance ids_ok_dec (s : Store) : Decision (ids_ok s).
Proof.
  refine (cast_if (decide (1 ≤ nextId s
                           ∧ Forall (λ n, 1 ≤ n < nextId s) (ids s)
                           ∧ StronglySorted Z.lt (ids s))));
    first [split; tauto | intros [? ? ?]; tauto].
Defined.

#[global] Instance inv_dec (s : Store) : Decision (inv s).
Proof. unfold inv. apply _. Defined.

(** Discharges a decidable statement about concrete stores. *)
Ltac by_computation := by apply (bool_decide_unpack _); vm_compute.

(** * The controller [TodoApp]

    The class [TodoApp] drives a [TodoList] from the events of a page.
    Of the page, the embedding keeps what the class reads or writes: the
    values of the two inputs, the highlight of the three filter buttons,
    the rows of the list element and what the class logs.  The
    functions the class takes from the browser are parameters. *)

From Stdlib Require Import Ascii.

(** [currentFilter: 'all' | 'active' | 'completed']. *)
Inductive Filter := All | Active | Completed.

#[global] Instance Filter_eq_dec : EqDecision Filter.
Proof. solve_decision. Defined.

(** What the class calls and the repository does not define:
    [String.prototype.trim], [new Date(value)] (as the time value of the
    date built), [toLocaleDateString], the local-time getters, and the
    value the date input of the edit template starts with. *)
Class Host := {
  trim : string → string;
  new_Date : string → Date;
  toLocaleDateString : Date → string;
  getFullYear : Date → Z;
  getMonth : Date → Z;
  getDate : Date → Z;
  edit_template_date : string
}.

(** [s.padStart(targetLength, c)] for a one-character pad string. *)
Fixpoint repeat_char (c : ascii) (n : nat) : string :=
  match n with
  | O => ""
  | S n' => String c (repeat_char c n')
  end.

Definition padStart (targetLength : nat) (c : ascii) (s : string) : string :=
  repeat_char c (targetLength - String.length s) +:+ s.

(** The contents of a row of the list: the clone of the todo template
    (checkbox, text, date text or hidden date) or, after a click on its
    edit button, the clone of the edit template (the values of its two
    inputs). *)
Record EditForm := mkEditForm {
  editInput : string;
  editDateInput : string
}.

Inductive Content :=
  | Shown (checkbox : bool) (todoText : string) (todoDate : option string)
  | Edited (form : EditForm).

(** A row ([li.todo-item]): the [TodoItem] object its handlers close
    over, [dataset.id], whether it has the class [completed], and its
    contents. *)
Record Row := mkRow {
  row_todo : ref;
  dataset_id : string;
  class_completed : bool;
  content : Content
}.

#[global] Instance EditForm_eq_dec : EqDecision EditForm.
Proof. solve_decision. Defined.

#[global] Instance Content_eq_dec : EqDecision Content.
Proof. solve_decision. Defined.

#[global] Instance Row_eq_dec : EqDecision Row.
Proof. solve_decision. Defined.

(** The fields of [TodoApp], the page elements they refer to, and the
    console.  [todoList] is the store together with the heap. *)
Record TodoApp := mkApp {
  todoList : Store;
  currentFilter : Filter;
  newTaskInput : string;
  dueDateInput : string;
  todoListElement : list Row;
  filterAllButton : bool;
  filterActiveButton : bool;
  filterCompletedButton : bool;
  console : list JsError
}.

Definition with_todoList (s : Store) (app : TodoApp) : TodoApp :=
  mkApp s (currentFilter app) (newTaskInput app) (dueDateInput app)
    (todoListElement app) (filterAllButton app) (filterActiveButton app)
    (filterCompletedButton app) (console app).

Definition with_rows (rows : list Row) (app : TodoApp) : TodoApp :=
  mkApp (todoList app) (currentFilter app) (newTaskInput app)
    (dueDateInput app) rows (filterAllButton app) (filterActiveButton app)
    (filterCompletedButton app) (console app).

Definition with_inputs (newTask due : string) (app : TodoApp) : TodoApp :=
  mkApp (todoList app) (currentFilter app) newTask due
    (todoListElement app) (filterAllButton app) (filterActiveButton app)
    (filterCompletedButton app) (console app).

Definition with_filter (f : Filter) (bAll bActive bCompleted : bool)
    (app : TodoApp) : TodoApp :=
  mkApp (todoList app) f (newTaskInput app) (dueDateInput app)
    (todoListElement app) bAll bActive bCompleted (console app).

(** [console.error(error)]. *)
Definition console_error (e : JsError) (app : TodoApp) : TodoApp :=
  mkApp (todoList app) (currentFilter app) (newTaskInput app)
    (dueDateInput app) (todoListElement app) (filterAllButton app)
    (filterActiveButton app) (filterCompletedButton app) (console app ++ [e]).

(** A handler runs to its end or is left by an exception nobody
    caught; either way it leaves the application behind. *)
Inductive Outcome :=
  | Done (app : TodoApp)
  | Uncaught (e : JsError) (app : TodoApp).

Definition app_of (o : Outcome) : TodoApp :=
  match o with Done app => app | Uncaught _ app => app end.

Definition uncaught_of (o : Outcome) : list JsError :=
  match o with Done _ => [] | Uncaught e _ => [e] end.

(** A call of a [TodoList] method from a handler, followed by the rest
    of the handler. *)
Definition call {A} (r : Result A) (app : TodoApp)
    (rest : A → TodoApp → Outcome) : Outcome :=
  match r with
  | Ok a s => rest a (with_todoList s app)
  | Throw e s => Uncaught e (with_todoList s app)
  end.

(** [try { ... } catch (error) { ... }]. *)
Definition try_catch (body : Outcome) (handler : JsError → TodoApp → Outcome)
  : Outcome :=
  match body with
  | Done app => Done app
  | Uncaught e app => handler e app
  end.

Section controller.
Context {host : Host}.

(** The row [renderTodos] builds for one [TodoItem]. *)
Definition render_row (s : Store) (r : ref) : Row :=
  let t := deref s r in
  mkRow r (pretty (id t)) (completed t)
        (Shown (completed t) (task t) (toLocaleDateString <$> dueDate t)).

(** [renderTodos()]. *)
Definition renderTodos (app : TodoApp) : Outcome :=
  let app := with_rows [] app in
  let queried :=
    match currentFilter app with
    | Active => filterTodos false (todoList app)
    | Completed => filterTodos true (todoList app)
    | All => listTodos (todoList app)
    end in
  call queried app (λ a app,
    Done (with_rows (render_row (todoList app) <$> array_at (todoList app) a)
                    app)).

(** [value ? new Date(value) : null], for the value of a date input. *)
Definition date_or_null (value : string) : option Date :=
  if bool_decide (value ≠ "") then Some (new_Date value) else None.

(** [handleAddTodo()]. *)
Definition handleAddTodo (app : TodoApp) : Outcome :=
  let tsk := trim (newTaskInput app) in
  if bool_decide (tsk ≠ "") then
    let due := date_or_null (dueDateInput app) in
    call (addTodo tsk due (todoList app)) app (λ _ app,
      renderTodos (with_inputs "" "" app))
  else Done app.

(** [handleToggleTodo(id)]. *)
Definition handleToggleTodo (n : Z) (app : TodoApp) : Outcome :=
  try_catch
    (call (toggleTodo n (todoList app)) app (λ _ app, renderTodos app))
    (λ error app, Done (console_error error app)).

(** [handleRemoveTodo(id)]. *)
Definition handleRemoveTodo (n : Z) (app : TodoApp) : Outcome :=
  try_catch
    (call (removeTodo n (todoList app)) app (λ _ app, renderTodos app))
    (λ error app, Done (console_error error app)).

(** The value [handleEditTodo] gives the date input of the edit form. *)
Definition date_input_value (d : Date) : string :=
  let year := getFullYear d in
  let month := padStart 2 "0"%char (pretty (getMonth d + 1)) in
  let day := padStart 2 "0"%char (pretty (getDate d)) in
  pretty year +:+ "-" +:+ month +:+ "-" +:+ day.

(** [handleEditTodo(todoItem, todo)], up to the registration of the two
    button handlers: row [i] gets the edit form. *)
Definition handleEditTodo (i : nat) (todo : ref) (app : TodoApp) : Outcome :=
  let t := deref (todoList app) todo in
  let form :=
    mkEditForm (task t)
      (match dueDate t with
       | Some d => date_input_value d
       | None => edit_template_date
       end) in
  Done (with_rows
          (alter (λ row, mkRow (row_todo row) (dataset_id row)
                               (class_completed row) (Edited form))
                 i (todoListElement app))
          app).

(** The click handler of the save button of an edit form. *)
Definition handleSave (form : EditForm) (todo : ref) (app : TodoApp)
  : Outcome :=
  let newTask := trim (editInput form) in
  if bool_decide (newTask ≠ "") then
    call (updateTodoTask (id (deref (todoList app) todo)) newTask
            (todoList app)) app (λ _ app,
      let newDueDate := date_or_null (editDateInput form) in
      call (updateTodoDueDate (id (deref (todoList app) todo)) newDueDate
              (todoList app)) app (λ _ app,
        renderTodos app))
  else Done app.

(** The click handler of the cancel button of an edit form. *)
Definition handleCancel (app : TodoApp) : Outcome := renderTodos app.

(** [handleClearCompleted()]. *)
Definition handleClearCompleted (app : TodoApp) : Outcome :=
  call (clearCompleted (todoList app)) app (λ _ app, renderTodos app).

(** [setFilter(filter)]. *)
Definition setFilter (f : Filter) (app : TodoApp) : Outcome :=
  renderTodos
    (with_filter f (bool_decide (f = All)) (bool_decide (f = Active))
                 (bool_decide (f = Completed)) app).

(** [new TodoApp()] on a page whose inputs and buttons are in the given
    state: the constructor creates the store and renders. *)
Definition new_TodoApp (newTask due : string) (bAll bActive bCompleted : bool)
  : Outcome :=
  renderTodos
    (mkApp new_TodoList All newTask due [] bAll bActive bCompleted []).

(** What can happen on the page: the user edits one of the inputs (the
    browser changes its value), presses a key in the task input, clicks
    a button, or changes a checkbox (the browser flips it, then the
    handler runs).  Rows are addressed by position. *)
Inductive Event :=
  | InputNewTask (v : string)
  | InputDueDate (v : string)
  | KeyPress (key : string)
  | ClickAdd
  | ClickFilter (f : Filter)
  | ClickClearCompleted
  | ChangeCheckbox (i : nat)
  | ClickEdit (i : nat)
  | ClickDelete (i : nat)
  | InputEdit (i : nat) (v : string)
  | InputEditDate (i : nat) (v : string)
  | ClickSave (i : nat)
  | ClickCancel (i : nat).

Definition set_content (i : nat) (c : Content) (app : TodoApp) : TodoApp :=
  with_rows
    (alter (λ row, mkRow (row_todo row) (dataset_id row)
                         (class_completed row) c)
           i (todoListElement app))
    app.

(** The listeners registered by [setupEventListeners], [renderTodos] and
    [handleEditTodo].  An event on an element that is not on the page
    (no such row, or the row shows the other template) cannot happen;
    it leaves the application as it is. *)
Definition dispatch (ev : Event) (app : TodoApp) : Outcome :=
  match ev with
  | InputNewTask v => Done (with_inputs v (dueDateInput app) app)
  | InputDueDate v => Done (with_inputs (newTaskInput app) v app)
  | KeyPress key =>
      if bool_decide (key = "Enter") then handleAddTodo app else Done app
  | ClickAdd => handleAddTodo app
  | ClickFilter f => setFilter f app
  | ClickClearCompleted => handleClearCompleted app
  | ChangeCheckbox i =>
      match todoListElement app !! i with
      | Some (mkRow todo _ _ (Shown b text date)) =>
          let app := set_content i (Shown (negb b) text date) app in
          handleToggleTodo (id (deref (todoList app) todo)) app
      | _ => Done app
      end
  | ClickEdit i =>
      match todoListElement app !! i with
      | Some (mkRow todo _ _ (Shown _ _ _)) => handleEditTodo i todo app
      | _ => Done app
      end
  | ClickDelete i =>
      match todoListElement app !! i with
      | Some (mkRow todo _ _ (Shown _ _ _)) =>
          handleRemoveTodo (id (deref (todoList app) todo)) app
      | _ => Done app
      end
  | InputEdit i v =>
      match todoListElement app !! i with
      | Some (mkRow _ _ _ (Edited form)) =>
          Done (set_content i (Edited (mkEditForm v (editDateInput form))) app)
      | _ => Done app
      end
  | InputEditDate i v =>
      match todoListElement app !! i with
      | Some (mkRow _ _ _ (Edited form)) =>
          Done (set_content i (Edited (mkEditForm (editInput form) v)) app)
      | _ => Done app
      end
  | ClickSave i =>
      match todoListElement app !! i with
      | Some (mkRow todo _ _ (Edited form)) => handleSave form todo app
      | _ => Done app
      end
  | ClickCancel i =>
      match todoListElement app !! i with
      | Some (mkRow _ _ _ (Edited _)) => handleCancel app
      | _ => Done app
      end
  end.

(** The events whose listeners make no call that writes to the store:
    edits of an input, opening or leaving an edit form, choosing a
    filter, and key presses other than Enter. *)
Definition reads_only (ev : Event) : bool :=
  match ev with
  | InputNewTask _ | InputDueDate _ | ClickEdit _ | InputEdit _ _
  | InputEditDate _ _ | ClickFilter _ | ClickCancel _ => true
  | KeyPress key => bool_decide (key ≠ "Enter")
  | ClickAdd | ClickClearCompleted | ChangeCheckbox _ | ClickDelete _
  | ClickSave _ => false
  end.

(** A sequence of events, oldest first: the application at the end and
    the exceptions no handler caught, in order. *)
Fixpoint play (evs : list Event) (app : TodoApp) : list JsError * TodoApp :=
  match evs with
  | [] => ([], app)
  | ev :: evs' =>
      let o := dispatch ev app in
      let '(errs, app') := play evs' (app_of o) in
      (uncaught_of o ++ errs, app')
  end.

(** The records the current filter selects. *)
Definition selected (f : Filter) (s : Store) (r : ref) : Prop :=
  match f with
  | All => True
  | Active => completed (deref s r) = false
  | Completed => completed (deref s r) = true
  end.

#[global] Instance selected_dec f s r : Decision (selected f s r).
Proof. destruct f; simpl; apply _. Defined.

(** A row agrees with the store when it carries the identifier and the
    flag of its record and, unless it shows the edit form, is the row
    [renderTodos] would build now. *)
Definition row_agrees (s : Store) (row : Row) : Prop :=
  dataset_id row = pretty (id (deref s (row_todo row)))
  ∧ class_completed row = completed (deref s (row_todo row))
  ∧ match content row with
    | Shown _ _ _ => row = render_row s (row_todo row)
    | Edited _ => True
    end.

(** The page agrees with the store when its rows are, in order, the
    records the current filter selects from the array of the store, and
    each row agrees with the store. *)
Definition view_agrees (app : TodoApp) : Prop :=
  row_todo <$> todoListElement app
  = filter (selected (currentFilter app) (todoList app))
           (stored (todoList app))
  ∧ Forall (row_agrees (todoList app)) (todoListElement app).

(** The application after a [renderTodos] that ran to its end: one more
    array in the heap, and the rows of the records the filter selects. *)
Definition refreshed (app : TodoApp) : TodoApp :=
  let s := todoList app in
  let l := filter (selected (currentFilter app) s) (stored s) in
  let s' := (alloc_array l s).2 in
  with_rows (render_row s' <$> l) (with_todoList s' app).

(** What holds of the application between two events. *)
Record app_ok (app : TodoApp) : Prop := mk_app_ok {
  ok_store : inv (todoList app);
  ok_tasks : Forall (λ t, task t ≠ "") (tasks (todoList app));
  ok_view : view_agrees app;
  ok_console : console app = []
}.
End controller.

(** A host for the examples: [trim] removes ASCII blanks from both
    ends, and every date string denotes 1 January 2024. *)
Definition is_blank (c : ascii) : bool :=
  bool_decide (c ∈ [" "; "009"; "010"; "011"; "012"; "013"]%char).

Fixpoint trim_start (s : string) : string :=
  match s with
  | String c s' => if is_blank c then trim_start s' else s
  | EmptyString => ""
  end.

Fixpoint trim_end (s : string) : string :=
  match s with
  | String c s' =>
      match trim_end s' with
      | EmptyString => if is_blank c then "" else String c ""
      | rest => String c rest
      end
  | EmptyString => ""
  end.

Definition sample_host : Host := {|
  trim s := trim_end (trim_start s);
  new_Date _ := 1704067200000;
  toLocaleDateString _ := "1/1/2024";
  getFullYear _ := 2024;
  getMonth _ := 0;
  getDate _ := 1;
  edit_template_date := ""
|}.
(** * Properties *)

(** ** The scenarios of the specification *)

Example ex_scenario_1 :
  tasks (run [AddTodo "Buy milk" None; AddTodo "Walk dog" (Some 1704067200000)]
             new_TodoList)
  = [mkTodoItem 1 "Buy milk" false None;
     mkTodoItem 2 "Walk dog" false (Some 1704067200000)].
Proof. reflexivity. Qed.

Example ex_scenario_2 :
  let s := run [AddTodo "Buy milk" None; AddTodo "Walk dog" (Some 1704067200000);
                ToggleTodo 1] new_TodoList in
  (∃ a s', filterTodos true s = Ok a s'
           ∧ deref s' <$> array_at s' a = [mkTodoItem 1 "Buy milk" true None])
  ∧ (∃ a s', filterTodos false s = Ok a s'
             ∧ deref s' <$> array_at s' a
               = [mkTodoItem 2 "Walk dog" false (Some 1704067200000)]).
Proof. split; eexists _, _; split; reflexivity. Qed.

Example ex_scenario_3 :
  exec (CompleteTodo 1)
       (run [AddTodo "Buy milk" None; AddTodo "Walk dog" None; RemoveTodo 1]
            new_TodoList)
  = Throw (NotFound 1)
      (run [AddTodo "Buy milk" None; AddTodo "Walk dog" None; RemoveTodo 1]
            new_TodoList).
Proof. reflexivity. Qed.

Example ex_scenario_4 :
  tasks (run [AddTodo "A" None; AddTodo "B" None; CompleteTodo 1; ClearCompleted]
             new_TodoList)
  = [mkTodoItem 2 "B" false None].
Proof. reflexivity. Qed.

Example ex_scenario_5 :
  tasks (run [AddTodo "Buy milk" None; AddTodo "Walk dog" None;
              UpdateTodoTask 2 "Walk the dog"] new_TodoList) !! 1%nat
  = Some (mkTodoItem 2 "Walk the dog" false None).
Proof. reflexivity. Qed.

Example ex_not_found_message :
  message (NotFound 7) = "Todo with id 7 not found".
Proof. reflexivity. Qed.

(** ** Lists *)

Section lists.
Context {A : Type}.
Implicit Types (l : list A).

Lemma filter_fmap_comm {B} (f : A → B) (P : B → Prop)
    `{!∀ y, Decision (P y)} l :
  filter P (f <$> l) = f <$> filter (λ x, P (f x)) l.
Proof.
  induction l as [|x l IH]; [done|].
  rewrite fmap_cons, !filter_cons.
  case_decide; [rewrite fmap_cons|]; by rewrite IH.
Qed.

Lemma filter_ext_in (P Q : A → Prop) `{!∀ x, Decision (P x)}
    `{!∀ x, Decision (Q x)} l :
  (∀ x, x ∈ l → P x ↔ Q x) → filter P l = filter Q l.
Proof.
  induction l as [|x l IH]; intros HPQ; [done|].
  rewrite !filter_cons.
  assert (P x ↔ Q x) as Hx by (apply HPQ; left).
  rewrite IH by (intros; apply HPQ; by right).
  repeat case_decide; tauto || done.
Qed.

Lemma list_find_ext_in (P Q : A → Prop) `{!∀ x, Decision (P x)}
    `{!∀ x, Decision (Q x)} l :
  (∀ x, x ∈ l → P x ↔ Q x) → list_find P l = list_find Q l.
Proof.
  induction l as [|x l IH]; intros HPQ; [done|]. simpl.
  assert (P x ↔ Q x) as Hx by (apply HPQ; left).
  rewrite IH by (intros; apply HPQ; by right).
  repeat case_decide; tauto || done.
Qed.

Lemma filter_all (P : A → Prop) `{!∀ x, Decision (P x)} l :
  (∀ x, x ∈ l → P x) → filter P l = l.
Proof.
  induction l as [|x l IH]; intros Hall; [done|].
  rewrite filter_cons_True by (apply Hall; left).
  f_equal. apply IH. intros y Hy. apply Hall. by right.
Qed.

Lemma filter_none (P : A → Prop) `{!∀ x, Decision (P x)} l :
  (∀ x, x ∈ l → ¬ P x) → filter P l = [].
Proof.
  induction l as [|x l IH]; intros Hall; [done|].
  rewrite filter_cons_False by (apply Hall; left).
  apply IH. intros y Hy. apply Hall. by right.
Qed.

Lemma NoDup_not_elem_of_delete l i x :
  NoDup l → l !! i = Some x → x ∉ delete i l.
Proof.
  intros Hnd Hi. rewrite <-(take_drop_middle l i x Hi) in Hnd.
  rewrite delete_take_drop.
  apply NoDup_app in Hnd as (_ & Hl & Hr%NoDup_cons).
  rewrite elem_of_app. intros [Hx|Hx].
  - apply (Hl x Hx). left.
  - by destruct Hr.
Qed.

Lemma filter_ne_delete `{!EqDecision A} l i x :
  NoDup l → l !! i = Some x → filter (λ y, y ≠ x) l = delete i l.
Proof.
  revert i. induction l as [|y l IH]; intros i Hnd Hi; [done|].
  apply NoDup_cons in Hnd as [Hy Hnd]. rewrite filter_cons.
  destruct i as [|i]; simplify_eq/=.
  - rewrite decide_False by (intros Hne; by apply Hne).
    apply filter_all. by intros z Hz ->.
  - rewrite decide_True; [by erewrite IH|].
    intros ->. apply Hy. by eapply list_elem_of_lookup_2.
Qed.

Lemma fmap_ext_elem {B} (f g : A → B) l :
  (∀ x, x ∈ l → f x = g x) → f <$> l = g <$> l.
Proof.
  intros H. apply list_fmap_ext. intros i x Hx. apply H.
  by eapply list_elem_of_lookup_2.
Qed.
End lists.

Lemma Forall_sublist {A} (P : A → Prop) (l1 l2 : list A) :
  l1 `sublist_of` l2 → Forall P l2 → Forall P l1.
Proof.
  rewrite !Forall_forall. intros Hsub H x Hx.
  apply H. by eapply elem_of_sublist.
Qed.

Lemma StronglySorted_sublist {A} (R : relation A) (l1 l2 : list A) :
  l1 `sublist_of` l2 → StronglySorted R l2 → StronglySorted R l1.
Proof.
  induction 1 as [|x l1 l2 Hsub IH|x l1 l2 Hsub IH]; intros Hs.
  - done.
  - apply StronglySorted_cons in Hs as [Hall Hs].
    apply StronglySorted_cons. split; [|by apply IH].
    by eapply Forall_sublist.
  - apply StronglySorted_cons in Hs as [_ Hs]. by apply IH.
Qed.

Lemma increasing_NoDup (l : list Z) : increasing l → NoDup l.
Proof.
  induction 1 as [|x l Hs IH Hall]; [constructor|].
  constructor; [|done].
  intros Hin. rewrite Forall_forall in Hall. specialize (Hall _ Hin). lia.
Qed.

Lemma increasing_snoc (l : list Z) (x : Z) :
  increasing l → Forall (λ y, y < x) l → increasing (l ++ [x]).
Proof.
  intros Hl Hall. apply StronglySorted_app_2; [|done|].
  - intros x1 x2 H1 ->%list_elem_of_singleton.
    rewrite Forall_forall in Hall. by apply Hall.
  - repeat constructor.
Qed.

(** ** Heap reads and writes *)

Section heap.
Implicit Types (s : Store) (r a : ref) (t : TodoItem) (n : Z) (l : list ref).

Lemma deref_write_item_eq r t s :
  (r < length (items s))%nat → deref (write_item r t s) r = t.
Proof. intros Hr. by apply list_lookup_total_insert_eq. Qed.

Lemma deref_write_item_ne r r' t s :
  r ≠ r' → deref (write_item r t s) r' = deref s r'.
Proof. intros Hne. by apply list_lookup_total_insert_ne. Qed.

Lemma deref_write_item_id r t s r' :
  id t = id (deref s r) → id (deref (write_item r t s) r') = id (deref s r').
Proof.
  intros Ht. destruct (decide (r = r')) as [<-|Hne].
  - destruct (decide (r < length (items s))%nat).
    + by rewrite deref_write_item_eq.
    + unfold deref, write_item; simpl. by rewrite list_insert_ge by lia.
  - by rewrite deref_write_item_ne.
Qed.

Lemma array_at_write_array_eq a l s :
  (a < length (arrays s))%nat → array_at (write_array a l s) a = l.
Proof. intros Ha. by apply list_lookup_total_insert_eq. Qed.

Lemma array_at_write_array_ne a a' l s :
  a ≠ a' → array_at (write_array a l s) a' = array_at s a'.
Proof. intros Hne. by apply list_lookup_total_insert_ne. Qed.

Lemma array_at_alloc_new l s :
  array_at (alloc_array l s).2 (alloc_array l s).1 = l.
Proof.
  unfold array_at, alloc_array; simpl.
  by apply list_lookup_total_middle.
Qed.

Lemma array_at_alloc_old l s a :
  (a < length (arrays s))%nat →
  array_at (alloc_array l s).2 a = array_at s a.
Proof. intros Ha. by apply lookup_total_app_l. Qed.

Lemma deref_alloc_old t s r :
  (r < length (items s))%nat → deref (alloc_item t s).2 r = deref s r.
Proof. intros Hr. by apply lookup_total_app_l. Qed.

Lemma deref_alloc_new t s :
  deref (alloc_item t s).2 (alloc_item t s).1 = t.
Proof.
  unfold deref, alloc_item; simpl. by apply list_lookup_total_middle.
Qed.

Lemma wf_lookup_lt s i r :
  wf s → stored s !! i = Some r → (r < length (items s))%nat.
Proof.
  intros Hwf Hi. pose proof (wf_refs _ Hwf) as Hall.
  rewrite Forall_forall in Hall. apply Hall.
  by eapply list_elem_of_lookup_2.
Qed.

Lemma wf_elem_lt s r :
  wf s → r ∈ stored s → (r < length (items s))%nat.
Proof.
  intros Hwf Hr. pose proof (wf_refs _ Hwf) as Hall.
  rewrite Forall_forall in Hall. by apply Hall.
Qed.

(** Assigning to the record at position [i] of the array changes
    position [i] of the task sequence and no other. *)
Lemma tasks_write_item s i r t :
  wf s → stored s !! i = Some r →
  tasks (write_item r t s) = <[i := t]> (tasks s).
Proof.
  intros Hwf Hi. unfold tasks. change (stored (write_item r t s)) with (stored s).
  apply list_eq. intros j. rewrite list_lookup_fmap.
  destruct (decide (i = j)) as [<-|Hne].
  - rewrite Hi. simpl. rewrite deref_write_item_eq by by eapply wf_lookup_lt.
    rewrite list_lookup_insert_eq; [done|].
    rewrite length_fmap. by eapply lookup_lt_Some.
  - rewrite list_lookup_insert_ne by done. rewrite list_lookup_fmap.
    destruct (stored s !! j) as [r'|] eqn:Hj; [|done]. simpl.
    rewrite deref_write_item_ne; [done|].
    intros ->. apply Hne. eapply NoDup_lookup; [by apply wf_nodup|done..].
Qed.

Lemma ids_write_item s r t :
  id t = id (deref s r) → ids (write_item r t s) = ids s.
Proof.
  intros Ht. unfold ids, tasks.
  change (stored (write_item r t s)) with (stored s).
  rewrite <-!list_fmap_compose. apply list_fmap_ext. intros i r' _. simpl.
  by apply deref_write_item_id.
Qed.

Lemma wf_write_item s r t : wf s → wf (write_item r t s).
Proof.
  intros [H1 H2 H3]. split; [done| |done].
  change (stored (write_item r t s)) with (stored s). simpl.
  by rewrite length_insert.
Qed.

Lemma ids_ok_write_item s r t :
  id t = id (deref s r) → ids_ok s → ids_ok (write_item r t s).
Proof.
  intros Ht [H0 H1 H2]. split; rewrite ?ids_write_item by done; done.
Qed.
End heap.

(** ** Looking a task up by identifier *)

Section find.
Implicit Types (s : Store) (r a : ref) (t : TodoItem) (n : Z).

Lemma find_todo_None n s : find_todo n s = None ↔ n ∉ ids s.
Proof.
  unfold find_todo, ids, tasks.
  rewrite list_find_None, Forall_forall, <-list_fmap_compose, list_elem_of_fmap.
  split.
  - intros H (r & -> & Hr). by apply (H r).
  - intros H r Hr Heq. apply H. exists r. by rewrite <-Heq.
Qed.

Lemma find_todo_is_Some n s : is_Some (find_todo n s) ↔ n ∈ ids s.
Proof.
  rewrite <-not_eq_None_Some, find_todo_None.
  destruct (decide (n ∈ ids s)); tauto.
Qed.

Lemma find_todo_Some n s i r :
  find_todo n s = Some (i, r) →
  stored s !! i = Some r ∧ id (deref s r) = n
  ∧ tasks s !! i = Some (deref s r)
  ∧ ∀ j t, tasks s !! j = Some t → (j < i)%nat → id t ≠ n.
Proof.
  unfold find_todo. rewrite list_find_Some. intros (Hi & Hid & Hfirst).
  split_and!; try done.
  - unfold tasks. by rewrite list_lookup_fmap, Hi.
  - intros j t Hj Hlt. unfold tasks in Hj.
    rewrite list_lookup_fmap in Hj.
    destruct (stored s !! j) as [r'|] eqn:Hr'; simplify_eq/=.
    by eapply Hfirst.
Qed.

(** The lookup only reads the array and the identifiers of the records
    in it. *)
Lemma find_todo_ext n s s' :
  stored s' = stored s →
  (∀ r, r ∈ stored s → id (deref s' r) = id (deref s r)) →
  find_todo n s' = find_todo n s.
Proof.
  intros Hst Hid. unfold find_todo. rewrite Hst.
  apply list_find_ext_in. intros r Hr. by rewrite Hid.
Qed.
End find.

(** ** The methods, one by one *)

Section methods.
Implicit Types (s : Store) (r a : ref) (t : TodoItem) (n : Z).
Implicit Types (f : TodoItem → TodoItem).

Lemma completeTodo_update n s :
  completeTodo n s = update_with (set_completed true) n s.
Proof. reflexivity. Qed.

Lemma toggleTodo_update n s : toggleTodo n s = update_with toggle n s.
Proof. reflexivity. Qed.

Lemma updateTodoTask_update n newTask s :
  updateTodoTask n newTask s = update_with (set_task newTask) n s.
Proof. reflexivity. Qed.

Lemma updateTodoDueDate_update n d s :
  updateTodoDueDate n d s = update_with (set_dueDate d) n s.
Proof. reflexivity. Qed.

Lemma update_with_found f n s i r :
  find_todo n s = Some (i, r) →
  update_with f n s = Ok tt (write_item r (f (deref s r)) s).
Proof. intros H. unfold update_with. by rewrite H. Qed.

Lemma update_with_missing f n s :
  n ∉ ids s → update_with f n s = Throw (NotFound n) s.
Proof.
  intros H%find_todo_None. unfold update_with. by rewrite H.
Qed.

Lemma removeTodo_found n s i r :
  find_todo n s = Some (i, r) →
  removeTodo n s = Ok tt (write_array (todos s) (delete i (stored s)) s).
Proof. intros H. unfold removeTodo. by rewrite H. Qed.

Lemma removeTodo_missing n s :
  n ∉ ids s → removeTodo n s = Throw (NotFound n) s.
Proof.
  intros H%find_todo_None. unfold removeTodo. by rewrite H.
Qed.

(** What [update_with] leaves alone. *)
Lemma update_with_frame f n s :
  let s' := store_of (update_with f n s) in
  stored s' = stored s ∧ todos s' = todos s ∧ arrays s' = arrays s
  ∧ nextId s' = nextId s ∧ length (items s') = length (items s).
Proof.
  unfold update_with. destruct (find_todo n s) as [[i r]|]; simpl; [|done].
  by rewrite length_insert.
Qed.

Lemma update_with_ids f n s :
  (∀ t, id (f t) = id t) → ids (store_of (update_with f n s)) = ids s.
Proof.
  intros Hf. unfold update_with.
  destruct (find_todo n s) as [[i r]|]; simpl; [|done].
  by apply ids_write_item.
Qed.

Lemma update_with_wf f n s : wf s → wf (store_of (update_with f n s)).
Proof.
  intros Hwf. unfold update_with.
  destruct (find_todo n s) as [[i r]|]; simpl; [|done].
  by apply wf_write_item.
Qed.

(** [addTodo] *)
Lemma addTodo_Ok tsk due s : ∃ s', addTodo tsk due s = Ok tt s'.
Proof. by eexists. Qed.

Lemma addTodo_frame tsk due s :
  let s' := store_of (addTodo tsk due s) in
  items s' = items s ++ [mkTodoItem (nextId s) tsk false due]
  ∧ todos s' = todos s ∧ nextId s' = nextId s + 1.
Proof. done. Qed.

Lemma addTodo_stored tsk due s :
  wf s →
  stored (store_of (addTodo tsk due s)) = stored s ++ [length (items s)].
Proof.
  intros Hwf. unfold addTodo, alloc_item; simpl.
  unfold stored at 1. simpl.
  rewrite array_at_write_array_eq; [done|]. simpl. by apply wf_todos.
Qed.

Lemma addTodo_deref_old tsk due s r :
  (r < length (items s))%nat →
  deref (store_of (addTodo tsk due s)) r = deref s r.
Proof. intros Hr. unfold deref; simpl. by apply lookup_total_app_l. Qed.

Lemma addTodo_deref_new tsk due s :
  deref (store_of (addTodo tsk due s)) (length (items s))
  = mkTodoItem (nextId s) tsk false due.
Proof. unfold deref; simpl. by apply list_lookup_total_middle. Qed.

Lemma addTodo_tasks tsk due s :
  wf s →
  tasks (store_of (addTodo tsk due s))
  = tasks s ++ [mkTodoItem (nextId s) tsk false due].
Proof.
  intros Hwf. unfold tasks. rewrite addTodo_stored by done.
  rewrite fmap_app. f_equal.
  - apply fmap_ext_elem. intros r Hr.
    apply addTodo_deref_old. by eapply wf_elem_lt.
  - cbn [fmap list_fmap]. by rewrite addTodo_deref_new.
Qed.

Lemma addTodo_ids tsk due s :
  wf s → ids (store_of (addTodo tsk due s)) = ids s ++ [nextId s].
Proof.
  intros Hwf. unfold ids. rewrite addTodo_tasks by done.
  by rewrite fmap_app.
Qed.

Lemma addTodo_wf tsk due s : wf s → wf (store_of (addTodo tsk due s)).
Proof.
  intros Hwf. pose proof (addTodo_stored tsk due s Hwf) as Hst.
  destruct Hwf as [H1 H2 H3]. split.
  - simpl. by rewrite length_insert.
  - rewrite Hst. simpl. rewrite length_app. simpl.
    apply Forall_app. split.
    + eapply Forall_impl; [done|]. simpl. lia.
    + repeat constructor. lia.
  - rewrite Hst. apply NoDup_app. split_and!; [done| |apply NoDup_singleton].
    intros r Hr ->%list_elem_of_singleton.
    rewrite Forall_forall in H2. specialize (H2 _ Hr). simpl in H2. lia.
Qed.

Lemma addTodo_ids_ok tsk due s :
  wf s → ids_ok s → ids_ok (store_of (addTodo tsk due s)).
Proof.
  intros Hwf [H0 H1 H2]. split; rewrite ?addTodo_ids by done; simpl.
  - lia.
  - apply Forall_app. split.
    + eapply Forall_impl; [done|]. simpl. lia.
    + repeat constructor; lia.
  - apply increasing_snoc; [done|].
    eapply Forall_impl; [done|]. simpl. lia.
Qed.

(** Stores that share the record region, where the array of the second
    is a subsequence of the array of the first. *)
Lemma deref_items s s' r : items s' = items s → deref s' r = deref s r.
Proof. intros H. unfold deref. by rewrite H. Qed.

Lemma tasks_items s s' :
  items s' = items s → stored s' = stored s → tasks s' = tasks s.
Proof.
  intros Hi Hs. unfold tasks. rewrite Hs.
  apply list_fmap_ext. intros ? r _. by apply deref_items.
Qed.

Lemma wf_shrink s s' :
  items s' = items s → (todos s' < length (arrays s'))%nat →
  stored s' `sublist_of` stored s → wf s → wf s'.
Proof.
  intros Hi Ht Hsub [H1 H2 H3]. split; [done| |].
  - rewrite Hi. by eapply Forall_sublist.
  - by eapply sublist_NoDup.
Qed.

Lemma ids_sublist s s' :
  items s' = items s → stored s' `sublist_of` stored s →
  ids s' `sublist_of` ids s.
Proof.
  intros Hi Hsub. unfold ids, tasks.
  rewrite <-!list_fmap_compose.
  rewrite (list_fmap_ext (id ∘ deref s') (id ∘ deref s) (stored s'))
    by (intros ? r _; simpl; by rewrite (deref_items s s')).
  by apply fmap_sublist.
Qed.

Lemma ids_ok_shrink s s' :
  items s' = items s → nextId s' = nextId s →
  stored s' `sublist_of` stored s → ids_ok s → ids_ok s'.
Proof.
  intros Hi Hn Hsub [H0 H1 H2].
  pose proof (ids_sublist s s' Hi Hsub) as Hids. split.
  - by rewrite Hn.
  - rewrite Hn. by eapply Forall_sublist.
  - by eapply StronglySorted_sublist.
Qed.

(** [removeTodo] *)
Lemma removeTodo_frame n s :
  let s' := store_of (removeTodo n s) in
  items s' = items s ∧ todos s' = todos s ∧ nextId s' = nextId s
  ∧ length (arrays s') = length (arrays s).
Proof.
  unfold removeTodo. destruct (find_todo n s) as [[i r]|]; simpl; [|done].
  by rewrite length_insert.
Qed.

Lemma removeTodo_stored n s i r :
  wf s → find_todo n s = Some (i, r) →
  stored (store_of (removeTodo n s)) = delete i (stored s).
Proof.
  intros Hwf Hf. rewrite (removeTodo_found _ _ _ _ Hf). simpl.
  unfold stored at 1. simpl.
  rewrite array_at_write_array_eq; [done|]. by apply wf_todos.
Qed.

Lemma removeTodo_tasks n s i r :
  wf s → find_todo n s = Some (i, r) →
  tasks (store_of (removeTodo n s)) = delete i (tasks s).
Proof.
  intros Hwf Hf. unfold tasks.
  rewrite (removeTodo_stored _ _ _ _ Hwf Hf), list_fmap_delete.
  f_equal. apply list_fmap_ext. intros ? r' _.
  apply deref_items. apply removeTodo_frame.
Qed.

Lemma removeTodo_sublist n s :
  wf s → stored (store_of (removeTodo n s)) `sublist_of` stored s.
Proof.
  intros Hwf. destruct (find_todo n s) as [[i r]|] eqn:Hf.
  - rewrite (removeTodo_stored _ _ _ _ Hwf Hf). apply sublist_delete.
  - unfold removeTodo. by rewrite Hf.
Qed.

Lemma removeTodo_wf n s : wf s → wf (store_of (removeTodo n s)).
Proof.
  intros Hwf. destruct (removeTodo_frame n s) as (Hi & Ht & Hn & Hl).
  apply (wf_shrink s); [done| |by apply removeTodo_sublist|done].
  rewrite Ht, Hl. by apply wf_todos.
Qed.

Lemma removeTodo_ids_ok n s :
  wf s → ids_ok s → ids_ok (store_of (removeTodo n s)).
Proof.
  intros Hwf Hok. destruct (removeTodo_frame n s) as (Hi & Ht & Hn & Hl).
  apply (ids_ok_shrink s); [done|done|by apply removeTodo_sublist|done].
Qed.

(** [listTodos] and [filterTodos]: a new array, nothing else. *)
Lemma listTodos_eq s :
  listTodos s = Ok (length (arrays s)) (alloc_array (stored s) s).2.
Proof. reflexivity. Qed.

Lemma filterTodos_eq b s :
  filterTodos b s
  = Ok (length (arrays s))
       (alloc_array (filter (λ r, completed (deref s r) = b) (stored s)) s).2.
Proof. reflexivity. Qed.

Lemma alloc_array_frame l s :
  let s' := (alloc_array l s).2 in
  items s' = items s ∧ todos s' = todos s ∧ nextId s' = nextId s
  ∧ length (arrays s') = S (length (arrays s))
  ∧ array_at s' (length (arrays s)) = l.
Proof.
  simpl. split_and!; try done.
  - rewrite length_app. simpl. lia.
  - apply (array_at_alloc_new l s).
Qed.

Lemma alloc_array_stored l s :
  wf s → stored (alloc_array l s).2 = stored s.
Proof.
  intros Hwf. unfold stored. simpl.
  apply (array_at_alloc_old l s). by apply wf_todos.
Qed.

Lemma alloc_array_wf l s : wf s → wf (alloc_array l s).2.
Proof.
  intros Hwf. apply (wf_shrink s); [done| | |done].
  - simpl. rewrite length_app. pose proof (wf_todos _ Hwf). simpl. lia.
  - by rewrite alloc_array_stored.
Qed.

Lemma alloc_array_ids_ok l s : wf s → ids_ok s → ids_ok (alloc_array l s).2.
Proof.
  intros Hwf Hok. apply (ids_ok_shrink s); [done|done| |done].
  by rewrite alloc_array_stored.
Qed.

(** [clearCompleted] *)
Lemma clearCompleted_Ok s : ∃ s', clearCompleted s = Ok tt s'.
Proof. by eexists. Qed.

Lemma clearCompleted_frame s :
  let s' := store_of (clearCompleted s) in
  items s' = items s ∧ nextId s' = nextId s
  ∧ todos s' = length (arrays s)
  ∧ length (arrays s') = S (length (arrays s)).
Proof. simpl. split_and!; try done. rewrite length_app. simpl. lia. Qed.

Lemma clearCompleted_stored s :
  stored (store_of (clearCompleted s))
  = filter (λ r, completed (deref s r) = false) (stored s).
Proof.
  unfold stored at 1, array_at. simpl. by apply list_lookup_total_middle.
Qed.

Lemma clearCompleted_wf s : wf s → wf (store_of (clearCompleted s)).
Proof.
  intros Hwf. destruct (clearCompleted_frame s) as (Hi & Hn & Ht & Hl).
  apply (wf_shrink s); [done| | |done].
  - rewrite Ht, Hl. lia.
  - rewrite clearCompleted_stored. apply sublist_filter.
Qed.

Lemma clearCompleted_ids_ok s :
  ids_ok s → ids_ok (store_of (clearCompleted s)).
Proof.
  intros Hok. apply (ids_ok_shrink s); [done|done| |done].
  rewrite clearCompleted_stored. apply sublist_filter.
Qed.
End methods.

(** ** One call, any call *)

Section steps.
Implicit Types (s : Store) (r a : ref) (t : TodoItem) (n : Z) (op : Op).

Lemma store_of_returning {A} (f : A → Value) (x : Result A) :
  store_of (returning f x) = store_of x.
Proof. by destruct x. Qed.

Lemma error_of_returning {A} (f : A → Value) (x : Result A) :
  error_of (returning f x) = error_of x.
Proof. by destruct x. Qed.

Lemma step_unfold s op :
  step s op =
  match op with
  | AddTodo tsk due => store_of (addTodo tsk due s)
  | CompleteTodo n => store_of (update_with (set_completed true) n s)
  | ToggleTodo n => store_of (update_with toggle n s)
  | RemoveTodo n => store_of (removeTodo n s)
  | ListTodos => (alloc_array (stored s) s).2
  | FilterTodos b =>
      (alloc_array (filter (λ r, completed (deref s r) = b) (stored s)) s).2
  | UpdateTodoTask n newTask => store_of (update_with (set_task newTask) n s)
  | UpdateTodoDueDate n d => store_of (update_with (set_dueDate d) n s)
  | ClearCompleted => store_of (clearCompleted s)
  end.
Proof. unfold step, exec. destruct op; by rewrite ?store_of_returning. Qed.

Lemma ids_ok_ext s s' :
  ids s' = ids s → nextId s' = nextId s → ids_ok s → ids_ok s'.
Proof. intros Hi Hn [H0 H1 H2]. split; by rewrite ?Hi, ?Hn. Qed.

Lemma update_with_ids_ok f n s :
  (∀ t, id (f t) = id t) → ids_ok s → ids_ok (store_of (update_with f n s)).
Proof.
  intros Hf. apply ids_ok_ext.
  - by apply update_with_ids.
  - apply update_with_frame.
Qed.

Lemma wf_step s op : wf s → wf (step s op).
Proof.
  intros Hwf. rewrite step_unfold.
  destruct op; auto using update_with_wf, addTodo_wf, removeTodo_wf,
    alloc_array_wf, clearCompleted_wf.
Qed.

Lemma ids_ok_step s op : wf s → ids_ok s → ids_ok (step s op).
Proof.
  intros Hwf Hok. rewrite step_unfold.
  destruct op; auto using addTodo_ids_ok, removeTodo_ids_ok,
    alloc_array_ids_ok, clearCompleted_ids_ok;
    by apply update_with_ids_ok.
Qed.

Lemma inv_step s op : inv s → inv (step s op).
Proof. intros [Hwf Hok]. split; auto using wf_step, ids_ok_step. Qed.

Lemma inv_run ops s : inv s → inv (run ops s).
Proof.
  revert s. induction ops as [|op ops IH]; intros s Hs; [done|].
  simpl. apply IH. by apply inv_step.
Qed.

Lemma inv_new : inv new_TodoList.
Proof.
  split; split; simpl; try done; try lia; constructor.
Qed.

Lemma inv_reachable s : reachable s → inv s.
Proof. intros [ops ->]. apply inv_run, inv_new. Qed.

Lemma run_app ops1 ops2 s : run (ops1 ++ ops2) s = run ops2 (run ops1 s).
Proof. apply foldl_app. Qed.

(** The counter: one more after [addTodo], the same after anything
    else. *)
Lemma nextId_step s op :
  nextId (step s op) = if is_add op then nextId s + 1 else nextId s.
Proof.
  rewrite step_unfold. destruct op; simpl; try done;
    apply update_with_frame || apply removeTodo_frame.
Qed.

Lemma nextId_step_le s op : nextId s ≤ nextId (step s op).
Proof. rewrite nextId_step. destruct (is_add op); lia. Qed.

Lemma nextId_run_le ops s : nextId s ≤ nextId (run ops s).
Proof.
  revert s. induction ops as [|op ops IH]; intros s; simpl; [lia|].
  etrans; [apply (nextId_step_le s op)|apply IH].
Qed.

Lemma adds_cons op ops :
  adds (op :: ops) = if is_add op then S (adds ops) else adds ops.
Proof. unfold adds. rewrite filter_cons. by destruct (is_add op). Qed.

Lemma nextId_run ops s : nextId (run ops s) = nextId s + Z.of_nat (adds ops).
Proof.
  revert s. induction ops as [|op ops IH]; intros s; simpl.
  - unfold adds. simpl. lia.
  - rewrite IH, nextId_step, adds_cons. destruct (is_add op); lia.
Qed.

(** The records a call creates, and the identifiers they get. *)
Lemma created_by_add tsk due s :
  wf s → created_by (AddTodo tsk due) s = [length (items s)].
Proof.
  intros Hwf. unfold created_by. rewrite step_unfold.
  by rewrite addTodo_stored, last_snoc.
Qed.

Lemma created_by_other s op : is_add op = false → created_by op s = [].
Proof. by destruct op. Qed.

Lemma assigned_seqZ ops s :
  inv s → assigned ops s = seqZ (nextId s) (Z.of_nat (adds ops)).
Proof.
  revert s. induction ops as [|op ops IH]; intros s Hinv; [done|].
  cbn [assigned]. rewrite IH by by apply inv_step.
  rewrite nextId_step, adds_cons.
  destruct (is_add op) eqn:Hop.
  - destruct op; try done. rewrite created_by_add by apply Hinv.
    cbn [fmap list_fmap app]. rewrite step_unfold, addTodo_deref_new.
    cbn [id]. rewrite (seqZ_cons (nextId s)) by lia.
    f_equal. f_equal; lia.
  - by rewrite created_by_other.
Qed.
End steps.

(** ** Identifiers *)

Lemma increasing_seqZ (m : Z) (k : nat) : increasing (seqZ m (Z.of_nat k)).
Proof.
  induction k as [|k IH]; [constructor|].
  rewrite seqZ_S. apply increasing_snoc; [done|].
  apply Forall_seqZ. lia.
Qed.

Section identifiers.
Implicit Types (s : Store) (n : Z) (op : Op).

Lemma ids_below_counter s n : ids_ok s → n ∈ ids s → 1 ≤ n < nextId s.
Proof.
  intros Hok Hn. pose proof (ids_pos _ Hok) as Hall.
  rewrite Forall_forall in Hall. by apply Hall.
Qed.

Lemma ids_NoDup s : ids_ok s → NoDup (ids s).
Proof. intros Hok. apply increasing_NoDup, Hok. Qed.

(** An identifier found after a call was there before, or is the one
    [addTodo] has just given out. *)
Lemma ids_step_elem s op n :
  wf s → n ∈ ids (step s op) →
  n ∈ ids s ∨ (is_add op = true ∧ n = nextId s).
Proof.
  intros Hwf. rewrite step_unfold.
  assert (∀ s', items s' = items s → stored s' `sublist_of` stored s →
                n ∈ ids s' → n ∈ ids s) as Hsub.
  { intros s' Hi Hs Hn. eapply elem_of_sublist; [done|]. by apply ids_sublist. }
  destruct op; cbv beta iota.
  - rewrite addTodo_ids by done. rewrite elem_of_app, list_elem_of_singleton.
    tauto.
  - rewrite update_with_ids by done. tauto.
  - rewrite update_with_ids by done. tauto.
  - intros Hn. left. revert Hn. apply Hsub; [apply removeTodo_frame|].
    by apply removeTodo_sublist.
  - intros Hn. left. revert Hn. apply Hsub; [done|].
    by rewrite alloc_array_stored.
  - intros Hn. left. revert Hn. apply Hsub; [done|].
    by rewrite alloc_array_stored.
  - rewrite update_with_ids by done. tauto.
  - rewrite update_with_ids by done. tauto.
  - intros Hn. left. revert Hn. apply Hsub; [done|].
    rewrite clearCompleted_stored. apply sublist_filter.
Qed.

(** An identifier below the counter that is not in the store never
    comes back. *)
Lemma absent_forever ops s n :
  wf s → n < nextId s → n ∉ ids s → n ∉ ids (run ops s).
Proof.
  revert s. induction ops as [|op ops IH]; intros s Hwf Hlt Hn; [done|].
  simpl. apply IH.
  - by apply wf_step.
  - pose proof (nextId_step_le s op). lia.
  - intros [?|[_ ->]]%ids_step_elem; [done|lia|done].
Qed.
End identifiers.

(** C1: whatever calls are made on a new store, the identifiers that
    [addTodo] gives out are 1, 2, 3, ... in this order, hence strictly
    increasing and without repetition, also when [removeTodo] and the
    other methods are called in between; the counter [nextId] never
    decreases; and at every point the identifiers in the store are
    pairwise distinct. *)
Theorem C1_ids_increasing_and_unique (ops : list Op) :
  let s := run ops new_TodoList in
  assigned ops new_TodoList = seqZ 1 (Z.of_nat (adds ops))
  ∧ increasing (assigned ops new_TodoList)
  ∧ NoDup (assigned ops new_TodoList)
  ∧ (∀ op, nextId s ≤ nextId (step s op))
  ∧ (∀ ops', nextId s ≤ nextId (run ops' s))
  ∧ NoDup (ids s).
Proof.
  intros s.
  assert (assigned ops new_TodoList = seqZ 1 (Z.of_nat (adds ops))) as Heq
    by apply (assigned_seqZ ops new_TodoList inv_new).
  rewrite Heq. split_and!.
  - done.
  - apply increasing_seqZ.
  - apply NoDup_seqZ.
  - intros op. apply nextId_step_le.
  - intros ops'. apply nextId_run_le.
  - apply ids_NoDup. apply (inv_run ops new_TodoList inv_new).
Qed.

(** ** Creating a task *)

(** C2, as stated, fails: [addTodo] returns [void], and no reading of
    the returned value gives the identifier.  The first call on a new
    store and the second both return [void], and their tasks get the
    identifiers 1 and 2. *)
Lemma C2_addTodo_returns_no_id :
  ¬ ∃ id_of : Value → Z,
      ∀ s tsk due, reachable s →
        ∃ v s', exec (AddTodo tsk due) s = Ok v s'
                ∧ last (ids s') = Some (id_of v).
Proof.
  intros [id_of H].
  destruct (H new_TodoList "A" None) as (v1 & s1 & E1 & L1);
    [by exists []|].
  destruct (H (run [AddTodo "A" None] new_TodoList) "B" None)
    as (v2 & s2 & E2 & L2); [by eexists|].
  vm_compute in E1, E2. simplify_eq. vm_compute in L1, L2. congruence.
Qed.

(** C2, amended: in every store that satisfies the invariants, and for
    every description and optional due date, [addTodo] succeeds and
    returns nothing; the task sequence afterwards is the one before
    followed by one new task, which carries the description and the due
    date given, [completed = false], and an identifier (the old value of
    the counter) that no task of the store has; that identifier can be
    read off the last element of the array [listTodos] returns. *)
Theorem C2_addTodo_appends_fresh (s : Store) (tsk : string) (due : option Date) :
  inv s →
  ∃ s',
    addTodo tsk due s = Ok tt s'
    ∧ exec (AddTodo tsk due) s = Ok VVoid s'
    ∧ tasks s' = tasks s ++ [mkTodoItem (nextId s) tsk false due]
    ∧ (nextId s ∉ ids s)
    ∧ nextId s' = nextId s + 1
    ∧ ∃ a s'', listTodos s' = Ok a s''
        ∧ last ((λ r, id (deref s'' r)) <$> array_at s'' a) = Some (nextId s).
Proof.
  intros [Hwf Hok]. eexists. split; [reflexivity|].
  pose proof (addTodo_wf tsk due s Hwf) as Hwf'.
  set (s' := store_of (addTodo tsk due s)) in *.
  change (write_array _ _ _) with s'.
  split_and!.
  - done.
  - by apply addTodo_tasks.
  - intros Hin%(ids_below_counter _ _ Hok). lia.
  - done.
  - rewrite listTodos_eq.
    exists (length (arrays s')), (alloc_array (stored s') s').2.
    split; [reflexivity|].
    destruct (alloc_array_frame (stored s') s') as (Hi & _ & _ & _ & Ha).
    rewrite Ha.
    rewrite (list_fmap_ext _ (λ r, id (deref s' r)) (stored s'))
      by (intros ? r _; cbv beta; by rewrite (deref_items s' _ r Hi)).
    unfold s' at 2. rewrite addTodo_stored by done.
    rewrite fmap_app, last_app. cbn [fmap list_fmap last].
    unfold s'. by rewrite addTodo_deref_new.
Qed.

(** [addTodo] on the store left by one insertion and one removal. *)
Lemma C2_addTodo_appends_fresh_witness :
  let s := run [AddTodo "Buy milk" None; RemoveTodo 1] new_TodoList in
  inv s
  ∧ ∃ s',
      addTodo "Walk dog" (Some 1704067200000) s = Ok tt s'
      ∧ exec (AddTodo "Walk dog" (Some 1704067200000)) s = Ok VVoid s'
      ∧ tasks s'
        = tasks s ++ [mkTodoItem (nextId s) "Walk dog" false (Some 1704067200000)]
      ∧ (nextId s ∉ ids s)
      ∧ nextId s' = nextId s + 1
      ∧ ∃ a s'', listTodos s' = Ok a s''
          ∧ last ((λ r, id (deref s'' r)) <$> array_at s'' a) = Some (nextId s).
Proof.
  intros s.
  assert (inv s) as Hinv by by_computation.
  split; [exact Hinv|].
  exact (C2_addTodo_appends_fresh s "Walk dog" (Some 1704067200000) Hinv).
Defined.

(** ** Failure *)

Section failure.
Implicit Types (s : Store) (n : Z) (op : Op).

Lemma exec_keyed op n s :
  key op = Some n →
  (n ∉ ids s → exec op s = Throw (NotFound n) s)
  ∧ (n ∈ ids s → error_of (exec op s) = None).
Proof.
  intros Hk. split.
  - intros Hn%find_todo_None.
    destruct op; simplify_eq/=;
      unfold completeTodo, toggleTodo, removeTodo, updateTodoTask,
        updateTodoDueDate; by rewrite Hn.
  - intros [[i r] Hf]%find_todo_is_Some.
    destruct op; simplify_eq/=;
      unfold completeTodo, toggleTodo, removeTodo, updateTodoTask,
        updateTodoDueDate; by rewrite Hf.
Qed.

Lemma exec_unkeyed op s : key op = None → error_of (exec op s) = None.
Proof. by destruct op. Qed.

Lemma removeTodo_gone s n : inv s → n ∉ ids (store_of (removeTodo n s)).
Proof.
  intros [Hwf Hok]. destruct (find_todo n s) as [[i r]|] eqn:Hf.
  - unfold ids. rewrite (removeTodo_tasks _ _ _ _ Hwf Hf), list_fmap_delete.
    fold (ids s). apply find_todo_Some in Hf as (_ & Hid & Hi & _).
    assert (ids s !! i = Some n) as Hn.
    { unfold ids. by rewrite list_lookup_fmap, Hi; simpl; rewrite Hid. }
    apply NoDup_not_elem_of_delete; [by apply ids_NoDup|done].
  - rewrite removeTodo_missing by by apply find_todo_None.
    by apply find_todo_None.
Qed.
End failure.

(** C3: an id-keyed call ([completeTodo], [toggleTodo], [removeTodo],
    [updateTodoTask], [updateTodoDueDate]) throws the not-found error
    exactly when no task of the store carries the identifier, and
    succeeds exactly when one does; no call throws anything else; the
    calls without an identifier ([addTodo], [listTodos], [filterTodos],
    [clearCompleted]) never throw.  In a store that satisfies the
    invariants, an identifier never given out (below 1, or not below the
    counter) is absent, the identifier of a task just removed is absent,
    and an absent identifier below the counter stays absent whatever is
    called next. *)
Theorem C3_NotFound_iff_absent (s : Store) (op : Op) :
  (∀ n, key op = Some n →
     (error_of (exec op s) = Some (NotFound n) ↔ n ∉ ids s)
     ∧ (error_of (exec op s) = None ↔ n ∈ ids s))
  ∧ (∀ e, error_of (exec op s) = Some e →
       ∃ n, key op = Some n ∧ e = NotFound n ∧ n ∉ ids s)
  ∧ (key op = None → error_of (exec op s) = None)
  ∧ (inv s → ∀ n, n < 1 ∨ nextId s ≤ n → n ∉ ids s)
  ∧ (inv s → ∀ n, op = RemoveTodo n → n ∉ ids (step s op))
  ∧ (inv s → ∀ n, n < nextId s → n ∉ ids s → ∀ ops, n ∉ ids (run ops s)).
Proof.
  split_and!.
  - intros n Hk. destruct (exec_keyed op n s Hk) as [Hno Hyes].
    destruct (decide (n ∈ ids s)) as [Hin|Hout].
    + specialize (Hyes Hin). rewrite Hyes. split; split; try done.
    + specialize (Hno Hout). rewrite Hno. simpl. split; split; try done.
  - intros e He. destruct (key op) as [n|] eqn:Hk.
    + destruct (exec_keyed op n s Hk) as [Hno Hyes].
      destruct (decide (n ∈ ids s)) as [Hin|Hout].
      * rewrite (Hyes Hin) in He. done.
      * rewrite (Hno Hout) in He. simpl in He. exists n. by simplify_eq.
    + by rewrite exec_unkeyed in He.
  - apply exec_unkeyed.
  - intros [_ Hok] n Hn Hin%(ids_below_counter _ _ Hok). lia.
  - intros Hinv n ->. rewrite step_unfold. by apply removeTodo_gone.
  - intros [Hwf _] n Hlt Hn ops. by apply absent_forever.
Qed.

(** Identifier 1 after its task was removed, identifier 2 still there,
    identifier 3 not yet given out. *)
Lemma C3_NotFound_iff_absent_witness :
  let s := run [AddTodo "Buy milk" None; AddTodo "Walk dog" None; RemoveTodo 1]
               new_TodoList in
  key (CompleteTodo 1) = Some 1
  ∧ inv s
  ∧ error_of (exec (CompleteTodo 1) s) = Some (NotFound 1)
  ∧ (1 ∉ ids s)
  ∧ error_of (exec (CompleteTodo 2) s) = None
  ∧ (3 ∉ ids s)
  ∧ 1 ∉ ids (run [AddTodo "Feed cat" None; ToggleTodo 2] s).
Proof.
  intros s.
  assert (inv s) as Hinv by by_computation.
  assert (1 ∉ ids s) as Hout by by_computation.
  destruct (C3_NotFound_iff_absent s (CompleteTodo 1))
    as (Hiff & _ & _ & Hnever & _ & Hstay).
  destruct (Hiff 1 eq_refl) as [[_ Hthrow] _].
  split_and!.
  - reflexivity.
  - exact Hinv.
  - exact (Hthrow Hout).
  - exact Hout.
  - reflexivity.
  - apply (Hnever Hinv 3). right. vm_compute. discriminate.
  - apply (Hstay Hinv 1); [reflexivity|exact Hout].
Defined.

(** C10: an id-keyed call given an identifier that no task of the store
    carries throws the not-found error and leaves the store exactly as
    it was: the records, the arrays, the array the store holds and the
    counter. *)
Theorem C10_failed_call_changes_nothing (s : Store) (op : Op) (n : Z) :
  key op = Some n → n ∉ ids s →
  exec op s = Throw (NotFound n) s
  ∧ step s op = s
  ∧ tasks (step s op) = tasks s
  ∧ stored (step s op) = stored s
  ∧ nextId (step s op) = nextId s.
Proof.
  intros Hk Hn. destruct (exec_keyed op n s Hk) as [Hno _].
  specialize (Hno Hn).
  assert (step s op = s) as Hs by (unfold step; by rewrite Hno).
  by rewrite Hs.
Qed.

(** [updateTodoDueDate] on the identifier of a removed task. *)
Lemma C10_failed_call_changes_nothing_witness :
  let s := run [AddTodo "Buy milk" None; AddTodo "Walk dog" None; RemoveTodo 1]
               new_TodoList in
  key (UpdateTodoDueDate 1 (Some 1704067200000)) = Some 1
  ∧ (1 ∉ ids s)
  ∧ exec (UpdateTodoDueDate 1 (Some 1704067200000)) s = Throw (NotFound 1) s
  ∧ step s (UpdateTodoDueDate 1 (Some 1704067200000)) = s.
Proof.
  intros s.
  assert (1 ∉ ids s) as Hout by by_computation.
  destruct (C10_failed_call_changes_nothing
              s (UpdateTodoDueDate 1 (Some 1704067200000)) 1 eq_refl Hout)
    as (H1 & H2 & _).
  split_and!; [reflexivity|exact Hout|exact H1|exact H2].
Defined.

(** ** Assigning to a field *)

Section update.
Implicit Types (s : Store) (r : ref) (t : TodoItem) (n : Z).
Implicit Types (f : TodoItem → TodoItem).

(** The effect of a successful [update_with] on the task sequence:
    the first task that carries the identifier is replaced by its
    image under [f], and nothing else moves or changes. *)
Lemma update_with_tasks f n s :
  wf s → n ∈ ids s →
  ∃ i r t,
    find_todo n s = Some (i, r)
    ∧ tasks s !! i = Some t ∧ t = deref s r ∧ id t = n
    ∧ (∀ j u, tasks s !! j = Some u → (j < i)%nat → id u ≠ n)
    ∧ update_with f n s = Ok tt (write_item r (f t) s)
    ∧ tasks (write_item r (f t) s) = <[i := f t]> (tasks s)
    ∧ deref (write_item r (f t) s) r = f t.
Proof.
  intros Hwf [[i r] Hf]%find_todo_is_Some.
  pose proof (find_todo_Some _ _ _ _ Hf) as (Hi & Hid & Ht & Hfirst).
  exists i, r, (deref s r). split_and!; try done.
  - by apply update_with_found with i.
  - by apply tasks_write_item.
  - apply deref_write_item_eq. by eapply wf_lookup_lt.
Qed.

Lemma find_todo_write_item f n s r :
  (∀ t, id (f t) = id t) →
  find_todo n (write_item r (f (deref s r)) s) = find_todo n s.
Proof.
  intros Hf. apply find_todo_ext; [done|].
  intros r' _. by apply deref_write_item_id.
Qed.

Lemma toggle_toggle t : toggle (toggle t) = t.
Proof. destruct t as [n d [] due]; reflexivity. Qed.

Lemma write_item_twice r t u s :
  write_item r u (write_item r t s) = write_item r u s.
Proof. unfold write_item; simpl. by rewrite list_insert_insert_eq. Qed.

Lemma write_item_same r s : write_item r (deref s r) s = s.
Proof.
  unfold write_item, deref. destruct s as [its arrs td nx]; simpl. f_equal.
  apply list_insert_id'. intros Hr. by apply list_lookup_lookup_total_lt.
Qed.
End update.

(** C7: in a well-formed store that holds a task with the identifier,
    [toggleTodo] succeeds twice in a row; the first call flips the
    [completed] flag of that task, the second restores it, and the store
    after the second call is the store before the first. *)
Theorem C7_toggle_twice (s : Store) (n : Z) :
  wf s → n ∈ ids s →
  ∃ i r s1 s2,
    find_todo n s = Some (i, r)
    ∧ toggleTodo n s = Ok tt s1
    ∧ toggleTodo n s1 = Ok tt s2
    ∧ completed (deref s1 r) = negb (completed (deref s r))
    ∧ completed (deref s2 r) = completed (deref s r)
    ∧ tasks s2 = tasks s
    ∧ s2 = s.
Proof.
  intros Hwf Hn.
  destruct (update_with_tasks toggle n s Hwf Hn)
    as (i & r & t & Hf & Hi & -> & Hid & _ & Hup & _ & Hd).
  set (s1 := write_item r (toggle (deref s r)) s) in *.
  assert (find_todo n s1 = Some (i, r)) as Hf1.
  { unfold s1. by rewrite (find_todo_write_item toggle). }
  assert (write_item r (toggle (deref s1 r)) s1 = s) as Hback.
  { rewrite Hd, toggle_toggle. unfold s1.
    by rewrite write_item_twice, write_item_same. }
  exists i, r, s1, s. split_and!; try done.
  - rewrite toggleTodo_update, (update_with_found _ _ _ _ _ Hf1).
    by rewrite Hback.
  - by rewrite Hd.
Qed.

(** Toggling the completed task 2 twice. *)
Lemma C7_toggle_twice_witness :
  let s := run [AddTodo "Buy milk" None; AddTodo "Walk dog" None; CompleteTodo 2]
               new_TodoList in
  wf s ∧ 2 ∈ ids s
  ∧ ∃ i r s1 s2,
      find_todo 2 s = Some (i, r)
      ∧ toggleTodo 2 s = Ok tt s1
      ∧ toggleTodo 2 s1 = Ok tt s2
      ∧ completed (deref s1 r) = negb (completed (deref s r))
      ∧ completed (deref s2 r) = completed (deref s r)
      ∧ tasks s2 = tasks s
      ∧ s2 = s.
Proof.
  intros s.
  assert (wf s) as Hwf by by_computation.
  assert (2 ∈ ids s) as Hin by by_computation.
  split_and!; [exact Hwf|exact Hin|].
  exact (C7_toggle_twice s 2 Hwf Hin).
Defined.

(** C8: in a well-formed store that holds a task with the identifier,
    [updateTodoTask] succeeds for every new description, the empty one
    included; the first task that carries the identifier gets the new
    description and keeps its identifier, its flag and its due date;
    every other position of the task sequence is as before; the array
    of the store and the counter are as before. *)
Theorem C8_updateTodoTask_frame (s : Store) (n : Z) (newTask : string) :
  wf s → n ∈ ids s →
  ∃ i t s',
    updateTodoTask n newTask s = Ok tt s'
    ∧ tasks s !! i = Some t ∧ id t = n
    ∧ tasks s' !! i
      = Some (mkTodoItem (id t) newTask (completed t) (dueDate t))
    ∧ (∀ j, j ≠ i → tasks s' !! j = tasks s !! j)
    ∧ length (tasks s') = length (tasks s)
    ∧ stored s' = stored s
    ∧ nextId s' = nextId s.
Proof.
  intros Hwf Hn.
  destruct (update_with_tasks (set_task newTask) n s Hwf Hn)
    as (i & r & t & Hf & Hi & -> & Hid & _ & Hup & Htasks & _).
  exists i, (deref s r), (write_item r (set_task newTask (deref s r)) s).
  rewrite Htasks. split_and!; try done.
  - apply list_lookup_insert_eq. by eapply lookup_lt_Some.
  - intros j Hj. by apply list_lookup_insert_ne.
  - by rewrite length_insert.
Qed.

(** Scenario 5 of the specification, on a completed task with a due date. *)
Lemma C8_updateTodoTask_frame_witness :
  let s := run [AddTodo "Buy milk" None;
                AddTodo "Walk dog" (Some 1704067200000);
                CompleteTodo 2] new_TodoList in
  wf s ∧ 2 ∈ ids s
  ∧ ∃ i t s',
      updateTodoTask 2 "Walk the dog" s = Ok tt s'
      ∧ tasks s !! i = Some t ∧ id t = 2
      ∧ tasks s' !! i
        = Some (mkTodoItem (id t) "Walk the dog" (completed t) (dueDate t))
      ∧ (∀ j, j ≠ i → tasks s' !! j = tasks s !! j)
      ∧ length (tasks s') = length (tasks s)
      ∧ stored s' = stored s
      ∧ nextId s' = nextId s.
Proof.
  intros s.
  assert (wf s) as Hwf by by_computation.
  assert (2 ∈ ids s) as Hin by by_computation.
  split_and!; [exact Hwf|exact Hin|].
  exact (C8_updateTodoTask_frame s 2 "Walk the dog" Hwf Hin).
Defined.

(** ** Filtering *)

Section filtering.
Implicit Types (s : Store) (r a : ref) (b : bool) (l : list ref).

(** Selecting references by the flag of their records and then
    reading the records is selecting records by their flag. *)
Lemma deref_filter_completed s s' b :
  items s' = items s →
  deref s' <$> filter (λ r, completed (deref s r) = b) (stored s)
  = filter (λ t, completed t = b) (tasks s).
Proof.
  intros Hi. unfold tasks.
  rewrite (filter_fmap_comm (deref s) (λ t, completed t = b)).
  apply list_fmap_ext. intros ? r _. by apply deref_items.
Qed.

Lemma length_arrays_alloc l s :
  length (arrays (alloc_array l s).2) = S (length (arrays s)).
Proof. simpl. rewrite length_app. simpl. lia. Qed.

Lemma filter_completed_twice s s' b :
  items s' = items s →
  filter (λ r, completed (deref s' r) = b)
         (filter (λ r, completed (deref s r) = b) (stored s))
  = filter (λ r, completed (deref s r) = b) (stored s).
Proof.
  intros Hi. apply filter_all. intros r Hr%list_elem_of_filter.
  rewrite (deref_items s s' r Hi). tauto.
Qed.
End filtering.

(** C5: in every store [clearCompleted] succeeds, also when no task is
    completed; afterwards the store holds exactly the tasks whose
    [completed] flag was false, in the order they had; the records and
    the counter are as before; a second call in a row succeeds and
    leaves the array contents, the records, the task sequence and the
    counter as the first call left them. *)
Theorem C5_clearCompleted (s : Store) :
  ∃ s1 s2,
    clearCompleted s = Ok tt s1
    ∧ clearCompleted s1 = Ok tt s2
    ∧ stored s1 = filter (λ r, completed (deref s r) = false) (stored s)
    ∧ tasks s1 = filter (λ t, completed t = false) (tasks s)
    ∧ (∀ t, t ∈ tasks s1 ↔ t ∈ tasks s ∧ completed t = false)
    ∧ tasks s1 `sublist_of` tasks s
    ∧ items s1 = items s ∧ nextId s1 = nextId s
    ∧ stored s2 = stored s1 ∧ tasks s2 = tasks s1
    ∧ items s2 = items s1 ∧ nextId s2 = nextId s1.
Proof.
  exists (store_of (clearCompleted s)),
         (store_of (clearCompleted (store_of (clearCompleted s)))).
  set (s1 := store_of (clearCompleted s)).
  set (s2 := store_of (clearCompleted s1)).
  assert (items s1 = items s) as Hi1 by done.
  assert (items s2 = items s1) as Hi2 by done.
  assert (tasks s1 = filter (λ t, completed t = false) (tasks s)) as Ht1.
  { unfold tasks at 1. unfold s1. rewrite clearCompleted_stored.
    by apply deref_filter_completed. }
  assert (stored s2 = stored s1) as Hs2.
  { unfold s2. rewrite clearCompleted_stored.
    assert (stored s1 = filter (λ r, completed (deref s r) = false) (stored s))
      as -> by apply clearCompleted_stored.
    by apply filter_completed_twice. }
  split_and!; try done.
  - apply clearCompleted_stored.
  - intros t. rewrite Ht1, list_elem_of_filter. tauto.
  - rewrite Ht1. apply sublist_filter.
  - by apply tasks_items.
Qed.

(** C6: in a well-formed store, call [filterTodos(true)], then
    [filterTodos(false)], then [listTodos()].  A reference (and a
    record) is in the third array exactly when it is in the first or in
    the second; the third array has the contents of the array of the
    store; the first and the second are the subsequences of those
    contents whose records have the flag set, respectively not set, in
    the same relative order. *)
Theorem C6_filters_partition_list (s : Store) :
  wf s →
  ∃ a1 s1 a2 s2 a3 s3,
    filterTodos true s = Ok a1 s1
    ∧ filterTodos false s1 = Ok a2 s2
    ∧ listTodos s2 = Ok a3 s3
    ∧ (∀ r, r ∈ array_at s3 a3 ↔ r ∈ array_at s3 a1 ∨ r ∈ array_at s3 a2)
    ∧ (∀ t, t ∈ deref s3 <$> array_at s3 a3
            ↔ t ∈ deref s3 <$> array_at s3 a1 ∨ t ∈ deref s3 <$> array_at s3 a2)
    ∧ array_at s3 a3 = stored s
    ∧ deref s3 <$> array_at s3 a3 = tasks s
    ∧ array_at s3 a1 = filter (λ r, completed (deref s r) = true) (stored s)
    ∧ array_at s3 a2 = filter (λ r, completed (deref s r) = false) (stored s)
    ∧ deref s3 <$> array_at s3 a1 = filter (λ t, completed t = true) (tasks s)
    ∧ deref s3 <$> array_at s3 a2 = filter (λ t, completed t = false) (tasks s)
    ∧ array_at s3 a1 `sublist_of` stored s
    ∧ array_at s3 a2 `sublist_of` stored s.
Proof.
  intros Hwf.
  set (l1 := filter (λ r, completed (deref s r) = true) (stored s)).
  set (l2 := filter (λ r, completed (deref s r) = false) (stored s)).
  set (s1 := (alloc_array l1 s).2).
  set (s2 := (alloc_array l2 s1).2).
  set (s3 := (alloc_array (stored s) s2).2).
  assert (wf s1) as Hwf1 by by apply alloc_array_wf.
  assert (wf s2) as Hwf2 by by apply alloc_array_wf.
  assert (stored s1 = stored s) as Hst1 by by apply alloc_array_stored.
  assert (stored s2 = stored s) as Hst2.
  { unfold s2. by rewrite alloc_array_stored. }
  assert (items s3 = items s) as Hi by done.
  exists (length (arrays s)), s1, (length (arrays s1)), s2,
         (length (arrays s2)), s3.
  assert (array_at s3 (length (arrays s2)) = stored s) as H3.
  { apply (alloc_array_frame (stored s) s2). }
  assert (array_at s3 (length (arrays s1)) = l2) as H2.
  { unfold s3. rewrite array_at_alloc_old.
    - apply (alloc_array_frame l2 s1).
    - unfold s2. rewrite length_arrays_alloc. lia. }
  assert (array_at s3 (length (arrays s)) = l1) as H1.
  { unfold s3. rewrite array_at_alloc_old.
    - unfold s2. rewrite array_at_alloc_old.
      + apply (alloc_array_frame l1 s).
      + unfold s1. rewrite length_arrays_alloc. lia.
    - unfold s2, s1. rewrite !length_arrays_alloc. lia. }
  assert (∀ r, r ∈ stored s ↔ r ∈ l1 ∨ r ∈ l2) as Hsplit.
  { intros r. unfold l1, l2. rewrite !list_elem_of_filter.
    destruct (completed (deref s r)); intuition congruence. }
  rewrite H1, H2, H3. split_and!.
  - by rewrite filterTodos_eq.
  - rewrite filterTodos_eq. unfold s2, l2. by rewrite Hst1.
  - rewrite listTodos_eq. by rewrite Hst2.
  - done.
  - intros t. rewrite !list_elem_of_fmap. split.
    + intros (r & -> & [Hr|Hr]%Hsplit); [left|right]; by exists r.
    + intros [(r & -> & Hr)|(r & -> & Hr)]; exists r;
        (split; [done|apply Hsplit; tauto]).
  - done.
  - apply list_fmap_ext. intros ? r _. by apply deref_items.
  - done.
  - done.
  - by apply deref_filter_completed.
  - by apply deref_filter_completed.
  - apply sublist_filter.
  - apply sublist_filter.
Qed.

(** Scenario 2 of the specification. *)
Lemma C6_filters_partition_list_witness :
  let s := run [AddTodo "Buy milk" None; AddTodo "Walk dog" None; ToggleTodo 1]
               new_TodoList in
  wf s
  ∧ ∃ a1 s1 a2 s2 a3 s3,
      filterTodos true s = Ok a1 s1
      ∧ filterTodos false s1 = Ok a2 s2
      ∧ listTodos s2 = Ok a3 s3
      ∧ (∀ r, r ∈ array_at s3 a3 ↔ r ∈ array_at s3 a1 ∨ r ∈ array_at s3 a2)
      ∧ deref s3 <$> array_at s3 a1 = [mkTodoItem 1 "Buy milk" true None]
      ∧ deref s3 <$> array_at s3 a2 = [mkTodoItem 2 "Walk dog" false None].
Proof.
  intros s.
  assert (wf s) as Hwf by by_computation.
  split; [exact Hwf|].
  destruct (C6_filters_partition_list s Hwf)
    as (a1 & s1 & a2 & s2 & a3 & s3 & E1 & E2 & E3 & Hu & _ & _ & _ & _ & _
        & T1 & T2 & _).
  exists a1, s1, a2, s2, a3, s3. split_and!; try done.
Defined.

(** ** Insertion order *)

Section history.
Implicit Types (s : Store) (r : ref) (n : Z) (op : Op) (ops : list Op).

Lemma removed_by_stored op s r : r ∈ removed_by op s → r ∈ stored s.
Proof.
  destruct op; simpl; try by intros ?%not_elem_of_nil.
  - by intros [_ ?]%list_elem_of_filter.
  - by intros [_ ?]%list_elem_of_filter.
Qed.

Lemma length_items_step s op :
  (length (items s) ≤ length (items (step s op)))%nat.
Proof.
  rewrite step_unfold. destruct op; simpl; try lia.
  - rewrite length_app. lia.
  - by destruct (update_with_frame (set_completed true) n s) as (_&_&_&_&->).
  - by destruct (update_with_frame toggle n s) as (_&_&_&_&->).
  - by destruct (removeTodo_frame n s) as (->&_).
  - by destruct (update_with_frame (set_task newTask) n s) as (_&_&_&_&->).
  - by destruct (update_with_frame (set_dueDate newDueDate) n s)
      as (_&_&_&_&->).
Qed.

Lemma created_by_fresh op s r :
  wf s → r ∈ created_by op s → r = length (items s).
Proof.
  intros Hwf. destruct op; try by intros ?%not_elem_of_nil.
  rewrite created_by_add by done. by intros ->%list_elem_of_singleton.
Qed.

Lemma inserted_fresh ops s r :
  wf s → r ∈ inserted ops s → (length (items s) ≤ r)%nat.
Proof.
  revert s. induction ops as [|op ops IH]; intros s Hwf.
  - by intros ?%not_elem_of_nil.
  - cbn [inserted]. rewrite elem_of_app. intros [Hr|Hr].
    + apply created_by_fresh in Hr; [lia|done].
    + apply IH in Hr; [|by apply wf_step].
      pose proof (length_items_step s op). lia.
Qed.

(** In a store with distinct identifiers, the references [removeTodo]
    is meant to remove are the one at the position it finds. *)
Lemma removed_by_remove_found n s i r :
  inv s → find_todo n s = Some (i, r) →
  ∀ r', r' ∈ stored s → (r' ∈ removed_by (RemoveTodo n) s ↔ r' = r).
Proof.
  intros [Hwf Hok] Hf r' Hr'.
  apply find_todo_Some in Hf as (Hi & Hid & _ & _).
  cbn [removed_by]. rewrite list_elem_of_filter. split.
  - intros [Hid' _].
    apply list_elem_of_lookup_1 in Hr' as [j Hj].
    assert (ids s !! j = Some n) as Hnj.
    { unfold ids, tasks. rewrite !list_lookup_fmap, Hj. simpl. by rewrite Hid'. }
    assert (ids s !! i = Some n) as Hni.
    { unfold ids, tasks. rewrite !list_lookup_fmap, Hi. simpl. by rewrite Hid. }
    assert (j = i) as -> by (eapply NoDup_lookup; [by apply ids_NoDup|done..]).
    congruence.
  - by intros ->.
Qed.

(** What one call does to the array of the store: it takes out what
    the call is meant to remove, keeps the rest in place, and puts what
    it creates at the end. *)
Lemma stored_step s op :
  inv s →
  stored (step s op)
  = filter (λ r, r ∉ removed_by op s) (stored s) ++ created_by op s.
Proof.
  intros Hinv. pose proof Hinv as [Hwf Hok].
  assert (filter (λ r, r ∉ @nil ref) (stored s) = stored s) as Hnil.
  { apply filter_all. intros r _. apply not_elem_of_nil. }
  assert (∀ f n, stored (store_of (update_with f n s)) = stored s) as Hup.
  { intros f n. apply update_with_frame. }
  destruct op; rewrite step_unfold; cbn [removed_by]; rewrite ?Hnil, ?Hup.
  - rewrite created_by_add by done. by apply addTodo_stored.
  - by rewrite app_nil_r.
  - by rewrite app_nil_r.
  - cbn [created_by]. rewrite app_nil_r.
    destruct (find_todo n s) as [[i r]|] eqn:Hf.
    + rewrite (removeTodo_stored _ _ _ _ Hwf Hf).
      pose proof (find_todo_Some _ _ _ _ Hf) as (Hi & _).
      rewrite <-(filter_ne_delete (stored s) i r) by (by apply wf_nodup || done).
      apply filter_ext_in. intros r' Hr'.
      by rewrite (removed_by_remove_found _ _ _ _ Hinv Hf r' Hr').
    + rewrite removeTodo_missing by by apply find_todo_None.
      simpl. symmetry. apply filter_all. intros r Hr.
      rewrite list_elem_of_filter. intros [Hid _].
      apply find_todo_None in Hf. apply Hf.
      unfold ids, tasks. rewrite <-list_fmap_compose.
      apply list_elem_of_fmap. exists r. by rewrite <-Hid.
  - cbn [created_by]. by rewrite app_nil_r, alloc_array_stored.
  - cbn [created_by]. by rewrite app_nil_r, alloc_array_stored.
  - by rewrite app_nil_r.
  - by rewrite app_nil_r.
  - cbn [created_by]. rewrite app_nil_r, clearCompleted_stored.
    apply filter_ext_in. intros r Hr. rewrite list_elem_of_filter.
    destruct (completed (deref s r)); intuition congruence.
Qed.

(** The same along a sequence of calls. *)
Lemma stored_run ops s :
  inv s →
  stored (run ops s)
  = filter (λ r, r ∉ removed ops s) (stored s ++ inserted ops s).
Proof.
  revert s. induction ops as [|op ops IH]; intros s Hinv.
  - simpl. rewrite app_nil_r. symmetry. apply filter_all.
    intros r _. apply not_elem_of_nil.
  - pose proof Hinv as [Hwf _].
    cbn [run foldl inserted removed]. fold (run ops (step s op)).
    rewrite IH by by apply inv_step.
    rewrite (stored_step s op Hinv).
    rewrite (list_filter_iff (λ r, r ∉ removed_by op s ++ removed ops (step s op))
               (λ r, (r ∉ removed ops (step s op)) ∧ (r ∉ removed_by op s)))
      by (intros r; rewrite elem_of_app; tauto).
    rewrite <-list_filter_filter. f_equal.
    rewrite !filter_app, <-!app_assoc. f_equal.
    rewrite <-filter_app. symmetry. apply filter_all.
    intros r Hr Hrem%removed_by_stored.
    apply (wf_elem_lt _ _ Hwf) in Hrem.
    assert (r ∈ inserted (op :: ops) s) as Hins by done.
    apply inserted_fresh in Hins; [lia|done].
Qed.
(** The identifier of an allocated record never changes, whatever is
    called, whether the record is still in the store or not. *)
Lemma id_deref_step s op r :
  (r < length (items s))%nat → id (deref (step s op) r) = id (deref s r).
Proof.
  intros Hr.
  assert (∀ f n, (∀ t, id (f t) = id t) →
            id (deref (store_of (update_with f n s)) r) = id (deref s r))
    as Hup.
  { intros f n Hf. unfold update_with.
    destruct (find_todo n s) as [[i r']|]; [|done].
    by apply deref_write_item_id. }
  rewrite step_unfold. destruct op; try done.
  - by rewrite addTodo_deref_old.
  - by apply Hup.
  - by apply Hup.
  - rewrite (deref_items s); [done|]. apply removeTodo_frame.
  - by apply Hup.
  - by apply Hup.
Qed.

Lemma id_deref_run ops s r :
  (r < length (items s))%nat → id (deref (run ops s) r) = id (deref s r).
Proof.
  revert s. induction ops as [|op ops IH]; intros s Hr; [done|].
  cbn [run foldl]. fold (run ops (step s op)).
  rewrite IH by (pose proof (length_items_step s op); lia).
  by apply id_deref_step.
Qed.

(** What one [addTodo] inserts, said without looking at the array
    afterwards: a record that was not allocated before, with the
    identifier taken from the counter and the fields given, put at the
    end of the array. *)
Lemma addTodo_inserts tsk due s :
  wf s →
  let r := length (items s) in
  let s1 := step s (AddTodo tsk due) in
  created_by (AddTodo tsk due) s = [r]
  ∧ (r ∉ stored s)
  ∧ deref s1 r = mkTodoItem (nextId s) tsk false due
  ∧ stored s1 = stored s ++ [r].
Proof.
  intros Hwf. cbv zeta. split_and!.
  - by apply created_by_add.
  - intros Hin%(wf_elem_lt _ _ Hwf). lia.
  - rewrite step_unfold. apply addTodo_deref_new.
  - rewrite step_unfold. by apply addTodo_stored.
Qed.

(** The records inserted along a sequence of calls carry, at the end,
    the identifiers from the counter on, one per [addTodo], in the order
    of the calls. *)
Lemma inserted_ids ops s :
  inv s →
  (λ r, id (deref (run ops s) r)) <$> inserted ops s
  = seqZ (nextId s) (Z.of_nat (adds ops)).
Proof.
  revert s. induction ops as [|op ops IH]; intros s Hinv; [done|].
  pose proof Hinv as [Hwf _].
  cbn [inserted run foldl]. fold (run ops (step s op)).
  rewrite fmap_app, IH by by apply inv_step.
  rewrite nextId_step, adds_cons.
  destruct (is_add op) eqn:Hop.
  - destruct op; try done. rewrite created_by_add by done.
    cbn [fmap list_fmap app].
    rewrite id_deref_run, step_unfold, addTodo_deref_new
      by (rewrite step_unfold; simpl; rewrite length_app; simpl; lia).
    cbn [id]. rewrite (seqZ_cons (nextId s)) by lia.
    f_equal. f_equal; lia.
  - by rewrite created_by_other.
Qed.

(** Whatever is removed along a sequence of calls was in the store at
    the start or was inserted along the sequence. *)
Lemma removed_known ops s r :
  inv s → r ∈ removed ops s → r ∈ stored s ++ inserted ops s.
Proof.
  revert s. induction ops as [|op ops IH]; intros s Hinv.
  - by intros ?%not_elem_of_nil.
  - cbn [removed inserted]. rewrite !elem_of_app.
    intros [Hr|Hr].
    + left. by eapply removed_by_stored.
    + apply IH in Hr; [|by apply inv_step].
      rewrite (stored_step s op Hinv), !elem_of_app in Hr.
      destruct Hr as [[[_ ?]%list_elem_of_filter|?]|?]; tauto.
Qed.

Lemma NoDup_fmap_inj_on {A B} (g : A → B) (l : list A) x y :
  NoDup (g <$> l) → x ∈ l → y ∈ l → g x = g y → x = y.
Proof.
  intros Hnd [i Hi]%list_elem_of_lookup_1 [j Hj]%list_elem_of_lookup_1 Hg.
  assert (i = j) as ->.
  { eapply NoDup_lookup; [done| |].
    - by rewrite list_lookup_fmap, Hi.
    - by rewrite list_lookup_fmap, Hj, Hg. }
  congruence.
Qed.

(** Taking the removed records out of the inserted ones is, read on the
    identifiers, taking the identifiers of the removed records out of
    the identifiers given out. *)
Lemma ids_run_new ops :
  let s := run ops new_TodoList in
  ids s
  = filter (λ n, n ∉ (λ r, id (deref s r)) <$> removed ops new_TodoList)
           (seqZ 1 (Z.of_nat (adds ops))).
Proof.
  intros s. set (g := λ r, id (deref s r)).
  pose proof (inserted_ids ops new_TodoList inv_new) as Hids.
  change (nextId new_TodoList) with 1 in Hids. fold s g in Hids.
  assert (NoDup (g <$> inserted ops new_TodoList)) as Hnd
    by (rewrite Hids; apply NoDup_seqZ).
  rewrite <-Hids.
  rewrite (filter_fmap_comm g (λ n, n ∉ g <$> removed ops new_TodoList)).
  unfold ids, tasks. rewrite <-list_fmap_compose.
  unfold s at 2. rewrite (stored_run ops new_TodoList inv_new).
  change (stored new_TodoList) with (@nil ref). rewrite app_nil_l.
  change (id ∘ deref s) with g. f_equal.
  apply filter_ext_in. intros r Hr. split.
  - intros Hout (r' & Hg & Hr')%list_elem_of_fmap. apply Hout.
    assert (r' ∈ inserted ops new_TodoList) as Hr'ins
      by (by apply (removed_known ops new_TodoList r' inv_new) in Hr').
    by rewrite (NoDup_fmap_inj_on g _ r r' Hnd Hr Hr'ins Hg).
  - intros Hout Hin. apply Hout. apply list_elem_of_fmap. by exists r.
Qed.
End history.

(** C4: after any sequence of calls on a new store, the array that
    [listTodos] returns holds the records inserted by the calls, in
    insertion order, without those removed by [removeTodo] or
    [clearCompleted]; the tasks read through it are the tasks of the
    store, their identifiers increase along it, and a call that only
    changes a flag, a description or a due date, or that queries, leaves
    the order as it was.  The records inserted are pinned down without
    reference to the array: there is one per [addTodo] call, no record
    is inserted twice, the records carry the identifiers 1, 2, 3, ... in
    the order of the calls, and each [addTodo] inserts a record that was
    not allocated before, with the fields given, at the end of the
    array.  So the identifiers listed are 1, 2, 3, ... up to the number
    of [addTodo] calls, in this order, without the identifiers of the
    removed records. *)
Theorem C4_listTodos_insertion_order (ops : list Op) :
  let s := run ops new_TodoList in
  ∃ a s',
    listTodos s = Ok a s'
    ∧ array_at s' a
      = filter (λ r, r ∉ removed ops new_TodoList) (inserted ops new_TodoList)
    ∧ deref s' <$> array_at s' a = tasks s
    ∧ increasing (id <$> (deref s' <$> array_at s' a))
    ∧ (∀ op, created_by op s = [] → removed_by op s = [] →
         stored (step s op) = stored s)
    ∧ length (inserted ops new_TodoList) = adds ops
    ∧ NoDup (inserted ops new_TodoList)
    ∧ (λ r, id (deref s r)) <$> inserted ops new_TodoList
      = seqZ 1 (Z.of_nat (adds ops))
    ∧ id <$> (deref s' <$> array_at s' a)
      = filter (λ n, n ∉ (λ r, id (deref s r)) <$> removed ops new_TodoList)
               (seqZ 1 (Z.of_nat (adds ops)))
    ∧ (∀ tsk due,
         let r := length (items s) in
         let s1 := step s (AddTodo tsk due) in
         created_by (AddTodo tsk due) s = [r]
         ∧ (r ∉ stored s)
         ∧ deref s1 r = mkTodoItem (nextId s) tsk false due
         ∧ stored s1 = stored s ++ [r]).
Proof.
  intros s.
  assert (inv s) as Hinv by apply (inv_run ops new_TodoList inv_new).
  pose proof (inserted_ids ops new_TodoList inv_new) as Hids.
  change (nextId new_TodoList) with 1 in Hids. fold s in Hids.
  exists (length (arrays s)), (alloc_array (stored s) s).2.
  destruct (alloc_array_frame (stored s) s) as (Hi & _ & _ & _ & Ha).
  rewrite Ha. split_and!.
  - apply listTodos_eq.
  - unfold s. by rewrite (stored_run ops new_TodoList inv_new).
  - done.
  - apply Hinv.
  - intros op Hc Hr. rewrite (stored_step s op Hinv), Hc, Hr, app_nil_r.
    apply filter_all. intros r _. apply not_elem_of_nil.
  - rewrite <-(length_fmap (λ r, id (deref s r))), Hids, length_seqZ. lia.
  - apply (NoDup_fmap_1 (λ r, id (deref s r))). rewrite Hids. apply NoDup_seqZ.
  - done.
  - apply (ids_run_new ops).
  - intros tsk due. apply addTodo_inserts, Hinv.
Qed.

(** Four insertions, one [removeTodo] and one [clearCompleted]: records 1
    and 3 (tasks 2 and 4) are left, in this order. *)
Lemma C4_listTodos_insertion_order_witness :
  let ops := [AddTodo "A" None; AddTodo "B" (Some 5); AddTodo "C" None;
              CompleteTodo 3; RemoveTodo 1; AddTodo "D" (Some 1);
              ClearCompleted; ToggleTodo 4] in
  let s := run ops new_TodoList in
  ∃ a s',
    listTodos s = Ok a s'
    ∧ inserted ops new_TodoList = [0; 1; 2; 3]%nat
    ∧ removed ops new_TodoList = [0; 2]%nat
    ∧ array_at s' a = [1; 3]%nat
    ∧ deref s' <$> array_at s' a
      = [mkTodoItem 2 "B" false (Some 5); mkTodoItem 4 "D" true (Some 1)]
    ∧ length (inserted ops new_TodoList) = 4%nat
    ∧ id <$> (deref s' <$> array_at s' a) = [2; 4].
Proof.
  intros ops s.
  destruct (C4_listTodos_insertion_order ops)
    as (a & s' & E & Ha & Ht & _ & _ & Hlen & _ & _ & Hids & _).
  exists a, s'. split_and!; [exact E|reflexivity|reflexivity| | | |].
  - rewrite Ha. reflexivity.
  - rewrite Ht. reflexivity.
  - rewrite Hlen. reflexivity.
  - rewrite Hids. reflexivity.
Defined.

(** ** What a caller can do with a returned array *)

Section snapshots.
Implicit Types (s : Store) (r a : ref) (m : Mutation) (l : list ref).

(** Mutations of an array other than the one the store holds. *)
Lemma mutate_array_frame a ms s :
  Forall (on_array a) ms → a ≠ todos s →
  let s' := foldl (flip mutate) s ms in
  items s' = items s ∧ todos s' = todos s ∧ nextId s' = nextId s
  ∧ stored s' = stored s ∧ length (arrays s') = length (arrays s).
Proof.
  intros Hms Ha. revert s Ha.
  induction Hms as [|m ms Hm _ IH]; intros s Ha; [done|].
  destruct m as [a' l|]; [|done]. simpl in Hm. subst a'.
  cbn [foldl flip mutate].
  destruct (IH (write_array a l s) Ha) as (H1 & H2 & H3 & H4 & H5).
  cbv zeta. rewrite H1, H2, H3, H4, H5. split_and!; try done.
  - unfold stored. simpl. by apply array_at_write_array_ne.
  - simpl. by rewrite length_insert.
Qed.

Lemma alloc_array_shallow l s : wf s →
  ∀ ms, Forall (on_array (length (arrays s))) ms →
  let s'' := foldl (flip mutate) (alloc_array l s).2 ms in
  length (arrays s) ≠ todos s'' ∧ todos s'' = todos s
  ∧ stored s'' = stored s
  ∧ items s'' = items s ∧ nextId s'' = nextId s
  ∧ tasks s'' = tasks s ∧ wf s'' ∧ (ids_ok s → ids_ok s'').
Proof.
  intros Hwf ms Hms. pose proof (wf_todos _ Hwf) as Hlt.
  assert (length (arrays s) ≠ todos (alloc_array l s).2) as Hne
    by (simpl; lia).
  destruct (mutate_array_frame _ ms _ Hms Hne) as (H1 & H2 & H3 & H4 & H5).
  cbv zeta. set (s'' := foldl (flip mutate) (alloc_array l s).2 ms) in *.
  assert (stored s'' = stored s) as Hst
    by (by rewrite H4, alloc_array_stored).
  split_and!; try done.
  - rewrite H2. simpl. lia.
  - by apply tasks_items.
  - apply (wf_shrink s); [done| |by rewrite Hst|done].
    rewrite H2, H5, length_arrays_alloc. simpl. lia.
  - apply ids_ok_shrink; [done|done|by rewrite Hst].
Qed.
End snapshots.

(** C9, as stated, fails for both queries: the records in the returned
    array are the records of the store.  With the tasks 1 and 2 in the
    store, assigning 2 to the [id] field of the first record of the
    array that [listTodos] (or [filterTodos(false)]) returned leaves two
    tasks with the identifier 2 in the store. *)
Lemma C9_records_are_shared :
  ¬ defensive listTodos ∧ ¬ defensive (filterTodos false).
Proof.
  set (s := run [AddTodo "A" None; AddTodo "B" None] new_TodoList).
  assert (inv s) as Hinv by by_computation.
  split; intros Hdef.
  - destruct (Hdef s _ _ (MutItem 0%nat (set_id 2 (mkTodoItem 1 "A" false None)))
                Hinv eq_refl) as [_ Hnd].
    + cbv [through]. by_computation.
    + revert Hnd. by_computation.
  - destruct (Hdef s _ _ (MutItem 0%nat (set_id 2 (mkTodoItem 1 "A" false None)))
                Hinv eq_refl) as [_ Hnd].
    + cbv [through]. by_computation.
    + revert Hnd. by_computation.
Qed.

(** C9, amended: [listTodos] and [filterTodos] return a newly allocated
    array, different from the one the store holds; whatever a caller
    then does to the returned array itself leaves the array of the
    store, the records, the counter, the task sequence and the
    invariants as they were.  The returned array holds references to the
    records of the store, not copies: an assignment to a record reached
    through it is an assignment to the task of the store. *)
Theorem C9_returned_array_is_fresh :
  shallow listTodos
  ∧ (∀ b, shallow (filterTodos b))
  ∧ (∀ s, wf s →
       ∃ a s', listTodos s = Ok a s'
         ∧ array_at s' a = stored s'
         ∧ ∀ i r t, array_at s' a !! i = Some r →
             tasks (mutate (MutItem r t) s') = <[i := t]> (tasks s'))
  ∧ (∀ b s, wf s →
       ∃ a s', filterTodos b s = Ok a s'
         ∧ array_at s' a = filter (λ r, completed (deref s' r) = b) (stored s')
         ∧ ∀ r t, r ∈ array_at s' a →
             r ∈ stored s' ∧ deref (mutate (MutItem r t) s') r = t).
Proof.
  split_and!.
  - intros s a s' ms Hwf Hq Hms. rewrite listTodos_eq in Hq.
    injection Hq as <- <-. by apply alloc_array_shallow.
  - intros b s a s' ms Hwf Hq Hms. rewrite filterTodos_eq in Hq.
    injection Hq as <- <-. by apply alloc_array_shallow.
  - intros s Hwf. eexists _, _. split; [apply listTodos_eq|].
    pose proof (alloc_array_wf (stored s) s Hwf) as Hwf'.
    destruct (alloc_array_frame (stored s) s) as (_ & _ & _ & _ & Ha).
    rewrite Ha, alloc_array_stored by done. split; [done|].
    intros i r t Hi. apply tasks_write_item; [done|].
    by rewrite alloc_array_stored.
  - intros b s Hwf. eexists _, _. split; [apply filterTodos_eq|].
    pose proof (alloc_array_wf
                  (filter (λ r, completed (deref s r) = b) (stored s)) s Hwf)
      as Hwf'.
    destruct (alloc_array_frame
                (filter (λ r, completed (deref s r) = b) (stored s)) s)
      as (_ & _ & _ & _ & Ha).
    rewrite Ha, alloc_array_stored by done. split; [done|].
    intros r t [_ Hr]%list_elem_of_filter. split; [done|].
    apply deref_write_item_eq. simpl. by apply (wf_elem_lt s).
Qed.

(** Overwriting and then emptying the array that [listTodos] returned. *)
Lemma C9_returned_array_is_fresh_witness :
  let s := run [AddTodo "A" None; AddTodo "B" None] new_TodoList in
  wf s
  ∧ listTodos s = Ok 1%nat (store_of (listTodos s))
  ∧ Forall (on_array 1%nat) [MutArray 1%nat [1; 0; 0]%nat; MutArray 1%nat []]
  ∧ stored (foldl (flip mutate) (store_of (listTodos s))
                  [MutArray 1%nat [1; 0; 0]%nat; MutArray 1%nat []])
    = stored s
  ∧ tasks (foldl (flip mutate) (store_of (listTodos s))
                 [MutArray 1%nat [1; 0; 0]%nat; MutArray 1%nat []])
    = tasks s.
Proof.
  intros s.
  assert (wf s) as Hwf by by_computation.
  assert (Forall (on_array 1%nat)
            [MutArray 1%nat [1; 0; 0]%nat; MutArray 1%nat []]) as Hms
    by (repeat constructor).
  destruct C9_returned_array_is_fresh as (Hlist & _).
  destruct (Hlist s 1%nat (store_of (listTodos s)) _ Hwf eq_refl Hms)
    as (_ & _ & Hst & _ & _ & Ht & _).
  split_and!; [exact Hwf|reflexivity|exact Hms|exact Hst|exact Ht].
Defined.

(** * Further properties of [TodoList] *)

Section more_lists.
Context {A : Type}.
Implicit Types (l : list A).

Lemma filter_insert_delete (P : A → Prop) `{!∀ x, Decision (P x)} l i x :
  (i < length l)%nat → ¬ P x → filter P (<[i := x]> l) = filter P (delete i l).
Proof.
  intros Hi Hx. rewrite insert_take_drop by done.
  rewrite delete_take_drop, !filter_app.
  by rewrite filter_cons_False.
Qed.

Lemma delete_snoc l x : delete (length l) (l ++ [x]) = l.
Proof.
  induction l as [|y l IH]; [done|]. simpl. by rewrite IH.
Qed.
End more_lists.

Section more_methods.
Implicit Types (s : Store) (r : ref) (t : TodoItem) (n : Z).
Implicit Types (f : TodoItem → TodoItem).

(** A second [update_with] with an assignment that the first has already
    made changes nothing. *)
Lemma update_with_again f n s i r :
  (∀ t, id (f t) = id t) → (∀ t, f (f t) = f t) →
  wf s → find_todo n s = Some (i, r) →
  let s' := write_item r (f (deref s r)) s in
  update_with f n s' = Ok tt s'.
Proof.
  intros Hid Hff Hwf Hf s'.
  assert (find_todo n s' = Some (i, r)) as Hf'.
  { unfold s'. by rewrite (find_todo_write_item f). }
  rewrite (update_with_found _ _ _ _ _ Hf'). f_equal.
  assert (deref s' r = f (deref s r)) as ->.
  { apply deref_write_item_eq. apply find_todo_Some in Hf as (Hi & _).
    by eapply wf_lookup_lt. }
  rewrite Hff. unfold s'. by rewrite write_item_twice.
Qed.

(** The general shape of what a successful field assignment does. *)
Lemma update_with_effect f n s :
  wf s → n ∈ ids s →
  ∃ i t s',
    update_with f n s = Ok tt s'
    ∧ tasks s !! i = Some t ∧ id t = n
    ∧ (∀ j u, tasks s !! j = Some u → (j < i)%nat → id u ≠ n)
    ∧ tasks s' = <[i := f t]> (tasks s)
    ∧ stored s' = stored s ∧ nextId s' = nextId s
    ∧ ((∀ t, id (f t) = id t) → (∀ t, f (f t) = f t) →
       update_with f n s' = Ok tt s').
Proof.
  intros Hwf Hn.
  destruct (update_with_tasks f n s Hwf Hn)
    as (i & r & t & Hf & Hi & -> & Hid & Hfirst & Hup & Htasks & _).
  exists i, (deref s r), (write_item r (f (deref s r)) s).
  split_and!; try done.
  intros H1 H2. by apply (update_with_again f n s i r).
Qed.
End more_methods.

(** X1: in a well-formed store that holds a task with the identifier,
    [completeTodo] succeeds; the first task carrying the identifier gets
    [completed = true] and keeps its other fields; no other task, nor
    the order, nor the counter changes; and calling it again leaves the
    store exactly as the first call left it. *)
Theorem X1_completeTodo_effect (s : Store) (n : Z) :
  wf s → n ∈ ids s →
  ∃ i t s',
    completeTodo n s = Ok tt s'
    ∧ tasks s !! i = Some t ∧ id t = n
    ∧ (∀ j u, tasks s !! j = Some u → (j < i)%nat → id u ≠ n)
    ∧ tasks s' = <[i := mkTodoItem (id t) (task t) true (dueDate t)]> (tasks s)
    ∧ stored s' = stored s ∧ nextId s' = nextId s
    ∧ completeTodo n s' = Ok tt s'.
Proof.
  intros Hwf Hn.
  destruct (update_with_effect (set_completed true) n s Hwf Hn)
    as (i & t & s' & H1 & H2 & H3 & H4 & H5 & H6 & H7 & H8).
  exists i, t, s'. split_and!; try done. by apply H8.
Qed.

(** [completeTodo] on the uncompleted task 1 of two. *)
Lemma X1_completeTodo_effect_witness :
  let s := run [AddTodo "Buy milk" None; AddTodo "Walk dog" None] new_TodoList in
  wf s ∧ 1 ∈ ids s
  ∧ ∃ i t s',
      completeTodo 1 s = Ok tt s'
      ∧ tasks s !! i = Some t ∧ id t = 1
      ∧ (∀ j u, tasks s !! j = Some u → (j < i)%nat → id u ≠ 1)
      ∧ tasks s' = <[i := mkTodoItem (id t) (task t) true (dueDate t)]> (tasks s)
      ∧ stored s' = stored s ∧ nextId s' = nextId s
      ∧ completeTodo 1 s' = Ok tt s'.
Proof.
  intros s.
  assert (wf s) as Hwf by by_computation.
  assert (1 ∈ ids s) as Hin by by_computation.
  split_and!; [exact Hwf|exact Hin|].
  exact (X1_completeTodo_effect s 1 Hwf Hin).
Defined.

(** X2: in a well-formed store that holds a task with the identifier,
    [updateTodoDueDate] succeeds for a date and for [null] alike; the
    first task carrying the identifier gets the new due date ([null]
    clears it) and keeps its other fields; no other task, nor the order,
    nor the counter changes. *)
Theorem X2_updateTodoDueDate_effect (s : Store) (n : Z) (d : option Date) :
  wf s → n ∈ ids s →
  ∃ i t s',
    updateTodoDueDate n d s = Ok tt s'
    ∧ tasks s !! i = Some t ∧ id t = n
    ∧ (∀ j u, tasks s !! j = Some u → (j < i)%nat → id u ≠ n)
    ∧ tasks s' = <[i := mkTodoItem (id t) (task t) (completed t) d]> (tasks s)
    ∧ stored s' = stored s ∧ nextId s' = nextId s.
Proof.
  intros Hwf Hn.
  destruct (update_with_effect (set_dueDate d) n s Hwf Hn)
    as (i & t & s' & H1 & H2 & H3 & H4 & H5 & H6 & H7 & _).
  exists i, t, s'. split_and!; done.
Qed.

(** Clearing the due date of task 2. *)
Lemma X2_updateTodoDueDate_effect_witness :
  let s := run [AddTodo "Buy milk" None; AddTodo "Walk dog" (Some 1704067200000)]
               new_TodoList in
  wf s ∧ 2 ∈ ids s
  ∧ ∃ i t s',
      updateTodoDueDate 2 None s = Ok tt s'
      ∧ tasks s !! i = Some t ∧ id t = 2
      ∧ (∀ j u, tasks s !! j = Some u → (j < i)%nat → id u ≠ 2)
      ∧ tasks s' = <[i := mkTodoItem (id t) (task t) (completed t) None]> (tasks s)
      ∧ stored s' = stored s ∧ nextId s' = nextId s.
Proof.
  intros s.
  assert (wf s) as Hwf by by_computation.
  assert (2 ∈ ids s) as Hin by by_computation.
  split_and!; [exact Hwf|exact Hin|].
  exact (X2_updateTodoDueDate_effect s 2 None Hwf Hin).
Defined.

(** X3: in a well-formed store that holds a task with the identifier,
    [removeTodo] succeeds and takes out the first task carrying the
    identifier and nothing else: the other tasks keep their fields and
    their relative order, there is one task fewer, the records
    themselves and the counter are untouched. *)
Theorem X3_removeTodo_effect (s : Store) (n : Z) :
  wf s → n ∈ ids s →
  ∃ i t s',
    removeTodo n s = Ok tt s'
    ∧ tasks s !! i = Some t ∧ id t = n
    ∧ (∀ j u, tasks s !! j = Some u → (j < i)%nat → id u ≠ n)
    ∧ tasks s' = delete i (tasks s)
    ∧ tasks s = take i (tasks s') ++ t :: drop i (tasks s')
    ∧ S (length (tasks s')) = length (tasks s)
    ∧ items s' = items s ∧ nextId s' = nextId s.
Proof.
  intros Hwf [[i r] Hf]%find_todo_is_Some.
  pose proof (find_todo_Some _ _ _ _ Hf) as (Hi & Hid & Ht & Hfirst).
  pose proof (removeTodo_tasks _ _ _ _ Hwf Hf) as Htasks.
  pose proof (removeTodo_frame n s) as (Hitems & _ & Hnext & _).
  rewrite (removeTodo_found _ _ _ _ Hf) in *. simpl in Htasks.
  pose proof (lookup_lt_Some _ _ _ Ht) as Hlt.
  eexists i, (deref s r), _. split; [reflexivity|].
  rewrite Htasks. split_and!; try done.
  - rewrite delete_take_drop.
    rewrite take_app_length' by (rewrite length_take; lia).
    rewrite drop_app_length' by (rewrite length_take; lia).
    symmetry. by apply take_drop_middle.
  - rewrite length_delete by done. lia.
Qed.

(** Removing task 2 of three. *)
Lemma X3_removeTodo_effect_witness :
  let s := run [AddTodo "A" None; AddTodo "B" None; AddTodo "C" None]
               new_TodoList in
  wf s ∧ 2 ∈ ids s
  ∧ ∃ i t s',
      removeTodo 2 s = Ok tt s'
      ∧ tasks s !! i = Some t ∧ id t = 2
      ∧ (∀ j u, tasks s !! j = Some u → (j < i)%nat → id u ≠ 2)
      ∧ tasks s' = delete i (tasks s)
      ∧ tasks s = take i (tasks s') ++ t :: drop i (tasks s')
      ∧ S (length (tasks s')) = length (tasks s)
      ∧ items s' = items s ∧ nextId s' = nextId s.
Proof.
  intros s.
  assert (wf s) as Hwf by by_computation.
  assert (2 ∈ ids s) as Hin by by_computation.
  split_and!; [exact Hwf|exact Hin|].
  exact (X3_removeTodo_effect s 2 Hwf Hin).
Defined.

(** X4: in a well-formed store that holds a task with the identifier,
    [toggleTodo] succeeds and negates the [completed] flag of the first
    task carrying the identifier; that task keeps its other fields, and
    no other task, nor the order, nor the counter changes. *)
Theorem X4_toggleTodo_effect (s : Store) (n : Z) :
  wf s → n ∈ ids s →
  ∃ i t s',
    toggleTodo n s = Ok tt s'
    ∧ tasks s !! i = Some t ∧ id t = n
    ∧ (∀ j u, tasks s !! j = Some u → (j < i)%nat → id u ≠ n)
    ∧ tasks s'
      = <[i := mkTodoItem (id t) (task t) (negb (completed t)) (dueDate t)]>
          (tasks s)
    ∧ stored s' = stored s ∧ nextId s' = nextId s.
Proof.
  intros Hwf Hn.
  destruct (update_with_effect toggle n s Hwf Hn)
    as (i & t & s' & H1 & H2 & H3 & H4 & H5 & H6 & H7 & _).
  exists i, t, s'. split_and!; done.
Qed.

(** Toggling the completed task 1 back. *)
Lemma X4_toggleTodo_effect_witness :
  let s := run [AddTodo "Buy milk" None; AddTodo "Walk dog" None; CompleteTodo 1]
               new_TodoList in
  wf s ∧ 1 ∈ ids s
  ∧ ∃ i t s',
      toggleTodo 1 s = Ok tt s'
      ∧ tasks s !! i = Some t ∧ id t = 1
      ∧ (∀ j u, tasks s !! j = Some u → (j < i)%nat → id u ≠ 1)
      ∧ tasks s'
        = <[i := mkTodoItem (id t) (task t) (negb (completed t)) (dueDate t)]>
            (tasks s)
      ∧ stored s' = stored s ∧ nextId s' = nextId s.
Proof.
  intros s.
  assert (wf s) as Hwf by by_computation.
  assert (1 ∈ ids s) as Hin by by_computation.
  split_and!; [exact Hwf|exact Hin|].
  exact (X4_toggleTodo_effect s 1 Hwf Hin).
Defined.

(** X5: in a well-formed store the two queries never throw and are
    read-only for everything but the new array they return: the array
    of the store, the records, the task sequence and the counter are as
    before, every array allocated earlier (one returned by an earlier
    query, say) has the contents it had, and the store stays
    well-formed. *)
Theorem X5_queries_are_read_only (s : Store) :
  wf s →
  ∀ q, (q = listTodos ∨ ∃ b, q = filterTodos b) →
  ∃ a s',
    q s = Ok a s'
    ∧ a = length (arrays s)
    ∧ todos s' = todos s ∧ stored s' = stored s ∧ items s' = items s
    ∧ tasks s' = tasks s ∧ nextId s' = nextId s
    ∧ (∀ a', (a' < length (arrays s))%nat → array_at s' a' = array_at s a')
    ∧ wf s'.
Proof.
  intros Hwf q Hq.
  assert (∃ l, q s = Ok (length (arrays s)) (alloc_array l s).2) as [l ->].
  { destruct Hq as [->|[b ->]]; eexists; [apply listTodos_eq|apply filterTodos_eq]. }
  eexists _, _. split; [reflexivity|].
  pose proof (alloc_array_stored l s Hwf) as Hst.
  split_and!; try done.
  - by apply tasks_items.
  - intros a' Ha'. by apply array_at_alloc_old.
  - by apply alloc_array_wf.
Qed.

(** [filterTodos(true)] after an earlier [listTodos]. *)
Lemma X5_queries_are_read_only_witness :
  let s := run [AddTodo "Buy milk" None; CompleteTodo 1; ListTodos] new_TodoList in
  wf s
  ∧ ∃ a s',
      filterTodos true s = Ok a s'
      ∧ a = 2%nat
      ∧ tasks s' = tasks s
      ∧ array_at s' 1%nat = array_at s 1%nat.
Proof.
  intros s.
  assert (wf s) as Hwf by by_computation.
  split; [exact Hwf|].
  destruct (X5_queries_are_read_only s Hwf (filterTodos true))
    as (a & s' & E & Ha & _ & _ & _ & Ht & _ & Hold & _).
  { right. by exists true. }
  exists a, s'. split_and!; [exact E|exact Ha|exact Ht|].
  apply Hold. vm_compute. lia.
Defined.

(** X6: every store reached from [new TodoList()] through the methods
    of the class is well-formed (the array of the store exists, each of
    its elements refers to an allocated record, no record occurs in it
    twice) and satisfies the identity invariant (the counter is at
    least 1; every identifier in the store is at least 1 and below the
    counter; identifiers increase along the array). *)
Theorem X6_reachable_stores_are_sound (ops : list Op) :
  let s := run ops new_TodoList in
  (todos s < length (arrays s))%nat
  ∧ Forall (λ r, (r < length (items s))%nat) (stored s)
  ∧ NoDup (stored s)
  ∧ 1 ≤ nextId s
  ∧ Forall (λ n, 1 ≤ n < nextId s) (ids s)
  ∧ increasing (ids s).
Proof.
  intros s.
  destruct (inv_run ops new_TodoList inv_new) as [[H1 H2 H3] [H4 H5 H6]].
  by split_and!.
Qed.

Section counting.
Implicit Types (s : Store) (op : Op) (ops : list Op).

Lemma length_created_by op s :
  wf s → length (created_by op s) = if is_add op then 1%nat else 0%nat.
Proof.
  intros Hwf. destruct op; try done. by rewrite created_by_add.
Qed.

Lemma length_inserted ops s : wf s → length (inserted ops s) = adds ops.
Proof.
  revert s. induction ops as [|op ops IH]; intros s Hwf; [done|].
  cbn [inserted]. rewrite length_app, length_created_by, adds_cons by done.
  rewrite IH by by apply wf_step. by destruct (is_add op).
Qed.
End counting.

(** X7: after any sequence of calls on a new store the counter is one
    more than the number of [addTodo] calls made, whatever was removed
    in between, and the store holds at most that many tasks. *)
Theorem X7_counter_counts_adds (ops : list Op) :
  let s := run ops new_TodoList in
  nextId s = 1 + Z.of_nat (adds ops)
  ∧ (length (tasks s) ≤ adds ops)%nat.
Proof.
  intros s. split.
  - unfold s. by rewrite nextId_run.
  - unfold tasks. rewrite length_fmap. unfold s.
    rewrite (stored_run ops new_TodoList inv_new).
    etrans; [apply length_filter|].
    change (stored new_TodoList) with (@nil ref). rewrite app_nil_l.
    rewrite length_inserted; [done|apply inv_new].
Qed.

(** X8: in a store that satisfies the invariants, [addTodo] followed by
    [removeTodo] of the identifier just given out succeeds and gives the
    task sequence back as it was, but not the counter: it stays one
    higher, so the identifier is not given out again. *)
Theorem X8_add_then_remove (s : Store) (tsk : string) (due : option Date) :
  inv s →
  ∃ s1 s2,
    addTodo tsk due s = Ok tt s1
    ∧ removeTodo (nextId s) s1 = Ok tt s2
    ∧ tasks s2 = tasks s
    ∧ stored s2 = stored s
    ∧ nextId s2 = nextId s + 1
    ∧ (nextId s ∉ ids s2).
Proof.
  intros [Hwf Hok].
  set (s1 := store_of (addTodo tsk due s)).
  pose proof (addTodo_wf tsk due s Hwf) as Hwf1. fold s1 in Hwf1.
  pose proof (addTodo_tasks tsk due s Hwf) as Ht1. fold s1 in Ht1.
  pose proof (addTodo_stored tsk due s Hwf) as Hst1. fold s1 in Hst1.
  assert (nextId s ∈ ids s1) as Hin.
  { unfold s1. rewrite addTodo_ids by done. apply elem_of_app. right. left. }
  apply find_todo_is_Some in Hin as [[i r] Hf].
  pose proof (find_todo_Some _ _ _ _ Hf) as (Hi & Hid & Hti & _).
  assert (i = length (stored s)) as ->.
  { destruct (decide (i < length (stored s))%nat) as [Hlt|Hge].
    - rewrite Hst1, lookup_app_l in Hi by done.
      assert (nextId s ∈ ids s) as Habs.
      { unfold ids, tasks. rewrite <-list_fmap_compose.
        apply list_elem_of_fmap. exists r. split.
        - simpl. rewrite <-Hid. unfold s1.
          rewrite addTodo_deref_old; [done|]. by eapply wf_lookup_lt.
        - by eapply list_elem_of_lookup_2. }
      apply (ids_below_counter _ _ Hok) in Habs. lia.
    - apply lookup_lt_Some in Hi. rewrite Hst1, length_app in Hi.
      simpl in Hi. lia. }
  exists s1, (store_of (removeTodo (nextId s) s1)).
  assert (stored (store_of (removeTodo (nextId s) s1)) = stored s) as Hst2.
  { rewrite (removeTodo_stored _ _ _ _ Hwf1 Hf), Hst1. apply delete_snoc. }
  assert (tasks (store_of (removeTodo (nextId s) s1)) = tasks s) as Ht2.
  { rewrite (removeTodo_tasks _ _ _ _ Hwf1 Hf), Ht1.
    replace (length (stored s)) with (length (tasks s))
      by (unfold tasks; by rewrite length_fmap).
    apply delete_snoc. }
  split_and!; try done.
  - by rewrite (removeTodo_found _ _ _ _ Hf).
  - by destruct (removeTodo_frame (nextId s) s1) as (_ & _ & -> & _).
  - unfold ids. rewrite Ht2. fold (ids s).
    intros Habs%(ids_below_counter _ _ Hok). lia.
Qed.

(** Adding a third task and removing it again. *)
Lemma X8_add_then_remove_witness :
  let s := run [AddTodo "A" None; AddTodo "B" None] new_TodoList in
  inv s
  ∧ ∃ s1 s2,
      addTodo "C" None s = Ok tt s1
      ∧ removeTodo 3 s1 = Ok tt s2
      ∧ tasks s2 = tasks s
      ∧ stored s2 = stored s
      ∧ nextId s2 = 4
      ∧ (3 ∉ ids s2).
Proof.
  intros s.
  assert (inv s) as Hinv by by_computation.
  split; [exact Hinv|].
  exact (X8_add_then_remove s "C" None Hinv).
Defined.

(** X9: in a well-formed store that holds a task with the identifier,
    completing the task and then clearing the completed tasks leaves the
    same tasks, in the same order, as removing it and then clearing. *)
Theorem X9_complete_then_clear (s : Store) (n : Z) :
  wf s → n ∈ ids s →
  ∃ s1 s2 s1' s2',
    completeTodo n s = Ok tt s1 ∧ clearCompleted s1 = Ok tt s2
    ∧ removeTodo n s = Ok tt s1' ∧ clearCompleted s1' = Ok tt s2'
    ∧ tasks s2 = tasks s2'
    ∧ nextId s2 = nextId s2'.
Proof.
  intros Hwf Hn.
  destruct (update_with_tasks (set_completed true) n s Hwf Hn)
    as (i & r & t & Hf & Hi & -> & Hid & _ & Hup & Htasks & _).
  pose proof (removeTodo_tasks _ _ _ _ Hwf Hf) as Hrem.
  pose proof (removeTodo_frame n s) as (_ & _ & Hnext & _).
  rewrite (removeTodo_found _ _ _ _ Hf) in *. simpl in Hrem, Hnext.
  eexists _, _, _, _. split; [exact Hup|].
  split; [reflexivity|]. split; [reflexivity|]. split; [reflexivity|].
  split; [|by apply Hnext].
  set (s1 := write_item r (set_completed true (deref s r)) s) in *.
  set (s1' := write_array (todos s) (delete i (stored s)) s) in *.
  assert (∀ s0, tasks (store_of (clearCompleted s0))
                = filter (λ t, completed t = false) (tasks s0)) as Hclear.
  { intros s0. unfold tasks at 1. rewrite clearCompleted_stored.
    by apply deref_filter_completed. }
  change (tasks (store_of (clearCompleted s1))
          = tasks (store_of (clearCompleted s1'))).
  rewrite !Hclear, Htasks, Hrem.
  apply filter_insert_delete; [by eapply lookup_lt_Some|done].
Qed.

(** Completing, respectively removing, task 1 of three, one of which is
    already completed, and clearing. *)
Lemma X9_complete_then_clear_witness :
  let s := run [AddTodo "A" None; AddTodo "B" None; AddTodo "C" None;
                CompleteTodo 3] new_TodoList in
  wf s ∧ 1 ∈ ids s
  ∧ ∃ s1 s2 s1' s2',
      completeTodo 1 s = Ok tt s1 ∧ clearCompleted s1 = Ok tt s2
      ∧ removeTodo 1 s = Ok tt s1' ∧ clearCompleted s1' = Ok tt s2'
      ∧ tasks s2 = tasks s2'
      ∧ nextId s2 = nextId s2'.
Proof.
  intros s.
  assert (wf s) as Hwf by by_computation.
  assert (1 ∈ ids s) as Hin by by_computation.
  split_and!; [exact Hwf|exact Hin|].
  exact (X9_complete_then_clear s 1 Hwf Hin).
Defined.

Section commuting.
Implicit Types (s : Store) (r : ref) (t : TodoItem) (n : Z).
Implicit Types (f g : TodoItem → TodoItem).

(** Two field assignments that do not touch the identifier and that
    commute on a record commute on the store. *)
Lemma update_with_comm f g n m s :
  (∀ t, id (f t) = id t) → (∀ t, id (g t) = id t) →
  (∀ t, f (g t) = g (f t)) →
  wf s → n ∈ ids s → m ∈ ids s →
  ∃ s1 s2 s1' s2',
    update_with f n s = Ok tt s1 ∧ update_with g m s1 = Ok tt s2
    ∧ update_with g m s = Ok tt s1' ∧ update_with f n s1' = Ok tt s2'
    ∧ s2 = s2'.
Proof.
  intros Hf Hg Hfg Hwf [[i r] Hn]%find_todo_is_Some [[j r'] Hm]%find_todo_is_Some.
  assert (r < length (items s))%nat as Hr
    by (apply find_todo_Some in Hn as (? & _); by eapply wf_lookup_lt).
  assert (r' < length (items s))%nat as Hr'
    by (apply find_todo_Some in Hm as (? & _); by eapply wf_lookup_lt).
  set (s1 := write_item r (f (deref s r)) s).
  set (s1' := write_item r' (g (deref s r')) s).
  assert (find_todo m s1 = Some (j, r')) as Hm1
    by (unfold s1; by rewrite (find_todo_write_item f)).
  assert (find_todo n s1' = Some (i, r)) as Hn1
    by (unfold s1'; by rewrite (find_todo_write_item g)).
  exists s1, (write_item r' (g (deref s1 r')) s1),
         s1', (write_item r (f (deref s1' r)) s1').
  split_and!; try by eapply update_with_found.
  destruct (decide (r = r')) as [<-|Hne].
  - unfold s1, s1'. rewrite !deref_write_item_eq, !write_item_twice by done.
    by rewrite Hfg.
  - unfold s1, s1'.
    rewrite !deref_write_item_ne by done.
    unfold write_item. simpl. f_equal.
    by apply list_insert_insert_ne.
Qed.
End commuting.

(** X10: in a well-formed store, [updateTodoTask] on one identifier and
    [updateTodoDueDate] on another (or the same) identifier, both
    present, succeed in either order and leave the same store. *)
Theorem X10_updates_commute
    (s : Store) (n m : Z) (newTask : string) (d : option Date) :
  wf s → n ∈ ids s → m ∈ ids s →
  ∃ s1 s2 s1' s2',
    updateTodoTask n newTask s = Ok tt s1
    ∧ updateTodoDueDate m d s1 = Ok tt s2
    ∧ updateTodoDueDate m d s = Ok tt s1'
    ∧ updateTodoTask n newTask s1' = Ok tt s2'
    ∧ s2 = s2'.
Proof.
  intros Hwf Hn Hm.
  by apply (update_with_comm (set_task newTask) (set_dueDate d)).
Qed.

(** A new description and a new due date for the same task. *)
Lemma X10_updates_commute_witness :
  let s := run [AddTodo "Buy milk" None; AddTodo "Walk dog" None] new_TodoList in
  wf s ∧ 2 ∈ ids s
  ∧ ∃ s1 s2 s1' s2',
      updateTodoTask 2 "Walk the dog" s = Ok tt s1
      ∧ updateTodoDueDate 2 (Some 1704067200000) s1 = Ok tt s2
      ∧ updateTodoDueDate 2 (Some 1704067200000) s = Ok tt s1'
      ∧ updateTodoTask 2 "Walk the dog" s1' = Ok tt s2'
      ∧ s2 = s2'.
Proof.
  intros s.
  assert (wf s) as Hwf by by_computation.
  assert (2 ∈ ids s) as Hin by by_computation.
  split_and!; [exact Hwf|exact Hin|].
  exact (X10_updates_commute s 2 2 "Walk the dog" (Some 1704067200000)
           Hwf Hin Hin).
Defined.

(** X11: right after [clearCompleted], in any store, [filterTodos(true)]
    returns an empty array and [filterTodos(false)] returns an array
    with the whole contents of the array of the store. *)
Theorem X11_nothing_completed_after_clear (s : Store) :
  ∃ s1 a s2 a' s3,
    clearCompleted s = Ok tt s1
    ∧ filterTodos true s1 = Ok a s2
    ∧ filterTodos false s1 = Ok a' s3
    ∧ array_at s2 a = []
    ∧ array_at s3 a' = stored s1
    ∧ Forall (λ t, completed t = false) (tasks s1).
Proof.
  set (s1 := store_of (clearCompleted s)).
  assert (∀ r, r ∈ stored s1 → completed (deref s1 r) = false) as Hall.
  { intros r. unfold s1 at 1. rewrite clearCompleted_stored.
    by intros [? _]%list_elem_of_filter. }
  eexists s1, _, _, _, _. split; [reflexivity|].
  rewrite !filterTodos_eq. split; [reflexivity|]. split; [reflexivity|].
  split_and!.
  - destruct (alloc_array_frame
                (filter (λ r, completed (deref s1 r) = true) (stored s1)) s1)
      as (_ & _ & _ & _ & ->).
    apply filter_none. intros r Hr. rewrite (Hall r Hr). done.
  - destruct (alloc_array_frame
                (filter (λ r, completed (deref s1 r) = false) (stored s1)) s1)
      as (_ & _ & _ & _ & ->).
    by apply filter_all.
  - unfold tasks. apply Forall_fmap, Forall_forall. intros r Hr. by apply Hall.
Qed.

(** * Properties of [TodoApp] *)

Example ex_trim : trim (Host := sample_host) "  Buy milk  " = "Buy milk".
Proof. reflexivity. Qed.

Example ex_date_input_value :
  date_input_value (host := sample_host) 1704067200000 = "2024-01-01".
Proof. reflexivity. Qed.

Section rendering.
Context {host : Host}.
Implicit Types (app : TodoApp) (s : Store) (r : ref) (row : Row).

Lemma with_todoList_same app : with_todoList (todoList app) app = app.
Proof. by destruct app. Qed.

Lemma array_at_alloc_length (l : list ref) s :
  array_at (alloc_array l s).2 (length (arrays s)) = l.
Proof. apply (array_at_alloc_new l s). Qed.

Lemma renderTodos_refreshed app : renderTodos app = Done (refreshed app).
Proof.
  unfold renderTodos, refreshed.
  destruct app as [s f newTask due rows bAll bActive bCompleted log].
  cbn [with_rows with_todoList currentFilter todoList].
  destruct f.
  - rewrite listTodos_eq. cbn [call with_todoList with_rows todoList].
    rewrite array_at_alloc_length.
    assert (filter (selected All s) (stored s) = stored s) as ->
      by (by apply filter_all).
    done.
  - rewrite filterTodos_eq. cbn [call with_todoList with_rows todoList].
    by rewrite array_at_alloc_length.
  - rewrite filterTodos_eq. cbn [call with_todoList with_rows todoList].
    by rewrite array_at_alloc_length.
Qed.

(** What a rendering leaves alone. *)
Lemma refreshed_frame app :
  wf (todoList app) →
  let app' := refreshed app in
  stored (todoList app') = stored (todoList app)
  ∧ items (todoList app') = items (todoList app)
  ∧ tasks (todoList app') = tasks (todoList app)
  ∧ nextId (todoList app') = nextId (todoList app)
  ∧ currentFilter app' = currentFilter app
  ∧ newTaskInput app' = newTaskInput app
  ∧ dueDateInput app' = dueDateInput app
  ∧ console app' = console app
  ∧ wf (todoList app').
Proof.
  intros Hwf. cbv zeta. unfold refreshed. cbn [with_rows with_todoList todoList
    currentFilter newTaskInput dueDateInput console].
  set (l := filter _ _).
  pose proof (alloc_array_stored l _ Hwf) as Hst.
  split_and!; try done.
  - by apply tasks_items.
  - by apply alloc_array_wf.
Qed.

Lemma selected_items f s s' r :
  items s' = items s → selected f s' r ↔ selected f s r.
Proof. intros Hi. destruct f; simpl; by rewrite ?(deref_items s s' r Hi). Qed.

Lemma render_row_items s s' r :
  items s' = items s → render_row s' r = render_row s r.
Proof. intros Hi. unfold render_row. by rewrite (deref_items s s' r Hi). Qed.

Lemma render_row_agrees s r : row_agrees s (render_row s r).
Proof. by split_and!. Qed.

(** After a rendering the page agrees with the store. *)
Lemma refreshed_view app : wf (todoList app) → view_agrees (refreshed app).
Proof.
  intros Hwf. destruct (refreshed_frame app Hwf) as (Hst & Hi & _ & _ & Hf & _).
  cbv zeta in *. split.
  - rewrite Hst, Hf.
    rewrite (filter_ext_in (selected (currentFilter app) (todoList (refreshed app)))
               (selected (currentFilter app) (todoList app)))
      by (intros r _; by apply selected_items).
    unfold refreshed. cbn [with_rows todoListElement].
    rewrite <-list_fmap_compose. by rewrite list_fmap_id.
  - unfold refreshed at 2. cbn [with_rows todoListElement].
    apply Forall_fmap, Forall_forall. intros r _. simpl.
    apply render_row_agrees.
Qed.

Lemma refreshed_ok app :
  inv (todoList app) → Forall (λ t, task t ≠ "") (tasks (todoList app)) →
  console app = [] → app_ok (refreshed app).
Proof.
  intros [Hwf Hok] Ht Hc.
  destruct (refreshed_frame app Hwf)
    as (Hst & Hi & Hts & Hn & _ & _ & _ & Hc' & Hwf').
  cbv zeta in *. split.
  - split; [done|]. by apply (ids_ok_shrink (todoList app)); rewrite ?Hst.
  - by rewrite Hts.
  - by apply refreshed_view.
  - by rewrite Hc'.
Qed.
End rendering.

Section handlers.
Context {host : Host}.
Implicit Types (app : TodoApp) (s : Store) (r : ref) (row : Row) (n : Z).
Implicit Types (f : TodoItem → TodoItem).

Lemma fmap_alter_same {A B} (g : A → B) (h : A → A) i (l : list A) :
  (∀ x, g (h x) = g x) → g <$> alter h i l = g <$> l.
Proof.
  intros Hgh.
  rewrite (list_fmap_alter g h (λ y, y))
    by (apply Forall_forall; intros x _; apply Hgh).
  by apply list_alter_id.
Qed.

Lemma stored_id_in_ids s r : r ∈ stored s → id (deref s r) ∈ ids s.
Proof.
  intros Hr. unfold ids, tasks. rewrite <-list_fmap_compose.
  apply list_elem_of_fmap. by exists r.
Qed.

Lemma update_with_Ok f n s :
  n ∈ ids s → update_with f n s = Ok tt (store_of (update_with f n s)).
Proof.
  intros [[i r] Hf]%find_todo_is_Some. unfold update_with. by rewrite Hf.
Qed.

Lemma removeTodo_Ok n s :
  n ∈ ids s → removeTodo n s = Ok tt (store_of (removeTodo n s)).
Proof.
  intros [[i r] Hf]%find_todo_is_Some. unfold removeTodo. by rewrite Hf.
Qed.

Lemma update_with_inv f n s :
  (∀ t, id (f t) = id t) → inv s → inv (store_of (update_with f n s)).
Proof.
  intros Hf [Hwf Hok]. split; [by apply update_with_wf|].
  by apply update_with_ids_ok.
Qed.

(** A property of single tasks that the assignment keeps stays true of
    all tasks. *)
Lemma update_with_Forall (P : TodoItem → Prop) f n s :
  (∀ t, P t → P (f t)) → wf s →
  Forall P (tasks s) → Forall P (tasks (store_of (update_with f n s))).
Proof.
  intros HP Hwf Hall. destruct (decide (n ∈ ids s)) as [Hn|Hn].
  - destruct (update_with_tasks f n s Hwf Hn)
      as (i & r & t & _ & Hi & _ & _ & _ & Hup & Htasks & _).
    rewrite Hup. cbn [store_of]. rewrite Htasks.
    apply Forall_insert; [done|]. apply HP.
    rewrite Forall_forall in Hall. apply Hall.
    by eapply list_elem_of_lookup_2.
  - by rewrite update_with_missing.
Qed.

Lemma tasks_sublist s s' :
  items s' = items s → stored s' `sublist_of` stored s →
  tasks s' `sublist_of` tasks s.
Proof.
  intros Hi Hsub. unfold tasks.
  rewrite (list_fmap_ext (deref s') (deref s) (stored s'))
    by (intros ? r _; by apply deref_items).
  by apply fmap_sublist.
Qed.

Lemma removeTodo_Forall (P : TodoItem → Prop) n s :
  wf s → Forall P (tasks s) → Forall P (tasks (store_of (removeTodo n s))).
Proof.
  intros Hwf. apply Forall_sublist, tasks_sublist.
  - apply removeTodo_frame.
  - by apply removeTodo_sublist.
Qed.

Lemma clearCompleted_Forall (P : TodoItem → Prop) s :
  Forall P (tasks s) → Forall P (tasks (store_of (clearCompleted s))).
Proof.
  apply Forall_sublist, tasks_sublist; [done|].
  rewrite clearCompleted_stored. apply sublist_filter.
Qed.

Lemma removeTodo_inv n s : inv s → inv (store_of (removeTodo n s)).
Proof.
  intros [Hwf Hok]. split; [by apply removeTodo_wf|by apply removeTodo_ids_ok].
Qed.

Lemma clearCompleted_inv s : inv s → inv (store_of (clearCompleted s)).
Proof.
  intros [Hwf Hok].
  split; [by apply clearCompleted_wf|by apply clearCompleted_ids_ok].
Qed.

Lemma addTodo_inv tsk due s : inv s → inv (store_of (addTodo tsk due s)).
Proof.
  intros [Hwf Hok]. split; [by apply addTodo_wf|by apply addTodo_ids_ok].
Qed.

Lemma addTodo_eq tsk due s :
  addTodo tsk due s = Ok tt (store_of (addTodo tsk due s)).
Proof. reflexivity. Qed.

Lemma clearCompleted_eq s :
  clearCompleted s = Ok tt (store_of (clearCompleted s)).
Proof. reflexivity. Qed.

(** The handlers, when the store call succeeds. *)
Lemma handleAddTodo_blank app :
  trim (newTaskInput app) = "" → handleAddTodo app = Done app.
Proof.
  intros Hb. unfold handleAddTodo. by rewrite Hb, bool_decide_eq_false_2 by auto.
Qed.

Lemma handleAddTodo_filled app :
  trim (newTaskInput app) ≠ "" →
  handleAddTodo app
  = Done (refreshed
            (with_inputs "" ""
               (with_todoList
                  (store_of (addTodo (trim (newTaskInput app))
                               (date_or_null (dueDateInput app)) (todoList app)))
                  app))).
Proof.
  intros Hb. unfold handleAddTodo. rewrite bool_decide_eq_true_2 by done.
  rewrite addTodo_eq. cbn [call]. by rewrite renderTodos_refreshed.
Qed.

Lemma handleToggleTodo_found n app :
  n ∈ ids (todoList app) →
  handleToggleTodo n app
  = Done (refreshed (with_todoList (store_of (toggleTodo n (todoList app))) app)).
Proof.
  intros Hn. unfold handleToggleTodo.
  rewrite toggleTodo_update, (update_with_Ok _ _ _ Hn). cbn [call].
  by rewrite renderTodos_refreshed.
Qed.

Lemma handleRemoveTodo_found n app :
  n ∈ ids (todoList app) →
  handleRemoveTodo n app
  = Done (refreshed (with_todoList (store_of (removeTodo n (todoList app))) app)).
Proof.
  intros Hn. unfold handleRemoveTodo.
  rewrite (removeTodo_Ok _ _ Hn). cbn [call].
  by rewrite renderTodos_refreshed.
Qed.

Lemma handleToggleTodo_missing n app :
  n ∉ ids (todoList app) →
  handleToggleTodo n app = Done (console_error (NotFound n) app).
Proof.
  intros Hn. unfold handleToggleTodo.
  rewrite toggleTodo_update, (update_with_missing _ _ _ Hn). cbn [call try_catch].
  by rewrite with_todoList_same.
Qed.

Lemma handleRemoveTodo_missing n app :
  n ∉ ids (todoList app) →
  handleRemoveTodo n app = Done (console_error (NotFound n) app).
Proof.
  intros Hn. unfold handleRemoveTodo.
  rewrite (removeTodo_missing _ _ Hn). cbn [call try_catch].
  by rewrite with_todoList_same.
Qed.

Lemma handleClearCompleted_refreshed app :
  handleClearCompleted app
  = Done (refreshed (with_todoList (store_of (clearCompleted (todoList app))) app)).
Proof.
  unfold handleClearCompleted. rewrite clearCompleted_eq. cbn [call].
  by rewrite renderTodos_refreshed.
Qed.

Lemma handleSave_blank form r app :
  trim (editInput form) = "" → handleSave form r app = Done app.
Proof.
  intros Hb. unfold handleSave. by rewrite Hb, bool_decide_eq_false_2 by auto.
Qed.

Lemma handleSave_filled form r app :
  trim (editInput form) ≠ "" → r ∈ stored (todoList app) →
  let s := todoList app in
  let s1 := store_of (updateTodoTask (id (deref s r)) (trim (editInput form)) s) in
  let s2 := store_of (updateTodoDueDate (id (deref s1 r))
                        (date_or_null (editDateInput form)) s1) in
  id (deref s1 r) = id (deref s r)
  ∧ handleSave form r app = Done (refreshed (with_todoList s2 app)).
Proof.
  intros Hb Hr s s1 s2.
  pose proof (stored_id_in_ids _ _ Hr) as Hn. fold s in Hn.
  assert (stored s1 = stored s) as Hst1.
  { unfold s1. rewrite updateTodoTask_update. apply update_with_frame. }
  assert (id (deref s1 r) = id (deref s r)) as Hid.
  { unfold s1. rewrite updateTodoTask_update.
    destruct (find_todo (id (deref s r)) s) as [[i r']|] eqn:Hf.
    - rewrite (update_with_found _ _ _ _ _ Hf). simpl.
      by apply deref_write_item_id.
    - unfold update_with. by rewrite Hf. }
  split; [done|].
  assert (id (deref s1 r) ∈ ids s1) as Hn1
    by (apply stored_id_in_ids; by rewrite Hst1).
  unfold handleSave. rewrite bool_decide_eq_true_2 by done. fold s.
  rewrite updateTodoTask_update, (update_with_Ok _ _ _ Hn).
  rewrite <-updateTodoTask_update. fold s1. cbn [call with_todoList todoList].
  rewrite updateTodoDueDate_update, (update_with_Ok _ _ _ Hn1).
  rewrite <-updateTodoDueDate_update. fold s2. cbn [call].
  by rewrite renderTodos_refreshed.
Qed.
End handlers.

(** ** What holds between two events *)

Section between_events.
Context {host : Host}.
Implicit Types (app : TodoApp) (s : Store) (r : ref) (row : Row) (n : Z).

Lemma row_in_stored app i row :
  view_agrees app → todoListElement app !! i = Some row →
  row_todo row ∈ stored (todoList app).
Proof.
  intros [Hrows _] Hi.
  assert (row_todo row ∈ row_todo <$> todoListElement app) as Hin.
  { apply list_elem_of_fmap. exists row. split; [done|].
    by eapply list_elem_of_lookup_2. }
  rewrite Hrows in Hin. by apply list_elem_of_filter in Hin as [_ ?].
Qed.

Lemma row_id_in_ids app i row :
  view_agrees app → todoListElement app !! i = Some row →
  id (deref (todoList app) (row_todo row)) ∈ ids (todoList app).
Proof. intros Hv Hi. apply stored_id_in_ids. by eapply row_in_stored. Qed.

(** Replacing the contents of a row by an edit form keeps the page in
    agreement with the store. *)
Lemma set_content_edited_view i form app :
  view_agrees app → view_agrees (set_content i (Edited form) app).
Proof.
  intros [Hrows Hall]. split.
  - cbn [set_content with_rows todoListElement currentFilter todoList].
    by rewrite fmap_alter_same.
  - cbn [set_content with_rows todoListElement todoList].
    apply Forall_alter; [done|].
    intros row _ (Hd & Hc & _). by split_and!.
Qed.

Lemma set_content_edited_ok i form app :
  app_ok app → app_ok (set_content i (Edited form) app).
Proof.
  intros [H1 H2 H3 H4]. split; try done.
  by apply set_content_edited_view.
Qed.

Lemma with_inputs_ok newTask due app :
  app_ok app → app_ok (with_inputs newTask due app).
Proof. intros [H1 H2 H3 H4]. by split. Qed.

(** After a store call that keeps the invariants and the descriptions
    non-empty, a rendering re-establishes everything. *)
Lemma refreshed_after_ok s' app :
  inv s' → Forall (λ t, task t ≠ "") (tasks s') → console app = [] →
  app_ok (refreshed (with_todoList s' app)).
Proof. intros H1 H2 H3. by apply refreshed_ok. Qed.

Lemma handleAddTodo_ok app :
  app_ok app → ∃ app', handleAddTodo app = Done app' ∧ app_ok app'.
Proof.
  intros Hok. destruct (decide (trim (newTaskInput app) = "")) as [Hb|Hb].
  - exists app. split; [by apply handleAddTodo_blank|done].
  - eexists. split; [by apply handleAddTodo_filled|].
    destruct Hok as [Hinv Ht _ Hc]. apply refreshed_ok.
    + by apply addTodo_inv.
    + cbn [with_inputs with_todoList todoList].
      rewrite addTodo_tasks by apply Hinv.
      apply Forall_app. split; [done|]. by repeat constructor.
    + done.
Qed.

Lemma handleSave_ok form i row app :
  app_ok app → todoListElement app !! i = Some row →
  ∃ app', handleSave form (row_todo row) app = Done app' ∧ app_ok app'.
Proof.
  intros Hok Hi. destruct (decide (trim (editInput form) = "")) as [Hb|Hb].
  - exists app. split; [by apply handleSave_blank|done].
  - destruct Hok as [Hinv Ht Hv Hc].
    pose proof (row_in_stored _ _ _ Hv Hi) as Hr.
    destruct (handleSave_filled form _ app Hb Hr) as [_ ->].
    eexists. split; [reflexivity|].
    rewrite updateTodoTask_update, updateTodoDueDate_update.
    apply refreshed_after_ok; [| |done].
    + apply update_with_inv; [done|]. by apply update_with_inv.
    + apply update_with_Forall; [done| |].
      * apply update_with_wf, Hinv.
      * apply update_with_Forall; [done|apply Hinv|done].
Qed.

(** Every listener runs to its end and keeps what holds between two
    events. *)
Lemma dispatch_ok ev app :
  app_ok app → ∃ app', dispatch ev app = Done app' ∧ app_ok app'.
Proof.
  intros Hok. pose proof Hok as [Hinv Ht Hv Hc].
  destruct ev as [v|v|key| |f| |i|i|i|i v|i v|i|i]; cbn [dispatch].
  - eexists. split; [done|]. by apply with_inputs_ok.
  - eexists. split; [done|]. by apply with_inputs_ok.
  - case_bool_decide; [by apply handleAddTodo_ok|by exists app].
  - by apply handleAddTodo_ok.
  - unfold setFilter. rewrite renderTodos_refreshed.
    eexists. split; [done|]. by apply refreshed_ok.
  - rewrite handleClearCompleted_refreshed. eexists. split; [done|].
    apply refreshed_after_ok; [by apply clearCompleted_inv| |done].
    by apply clearCompleted_Forall.
  - destruct (todoListElement app !! i) as [[r did cc [b text date|form]]|]
      eqn:Hi; [|by exists app..].
    pose proof (row_id_in_ids _ _ _ Hv Hi) as Hn. cbn [row_todo] in Hn.
    rewrite handleToggleTodo_found by done. eexists. split; [done|].
    cbn [set_content with_rows todoList]. rewrite toggleTodo_update.
    apply refreshed_after_ok; [by apply update_with_inv| |done].
    apply update_with_Forall; [done|apply Hinv|done].
  - destruct (todoListElement app !! i) as [[r did cc [b text date|form]]|]
      eqn:Hi; [|by exists app..].
    eexists. split; [done|]. by apply (set_content_edited_ok i).
  - destruct (todoListElement app !! i) as [[r did cc [b text date|form]]|]
      eqn:Hi; [|by exists app..].
    pose proof (row_id_in_ids _ _ _ Hv Hi) as Hn. cbn [row_todo] in Hn.
    rewrite handleRemoveTodo_found by done. eexists. split; [done|].
    apply refreshed_after_ok; [by apply removeTodo_inv| |done].
    apply removeTodo_Forall; [apply Hinv|done].
  - destruct (todoListElement app !! i) as [[r did cc [b text date|form]]|]
      eqn:Hi; [by exists app| |by exists app].
    eexists. split; [done|]. by apply set_content_edited_ok.
  - destruct (todoListElement app !! i) as [[r did cc [b text date|form]]|]
      eqn:Hi; [by exists app| |by exists app].
    eexists. split; [done|]. by apply set_content_edited_ok.
  - destruct (todoListElement app !! i) as [[r did cc [b text date|form]]|]
      eqn:Hi; [by exists app| |by exists app].
    by apply (handleSave_ok form i _ app Hok Hi).
  - destruct (todoListElement app !! i) as [[r did cc [b text date|form]]|]
      eqn:Hi; [by exists app| |by exists app].
    unfold handleCancel. rewrite renderTodos_refreshed.
    eexists. split; [done|]. by apply refreshed_ok.
Qed.

Lemma play_ok evs app :
  app_ok app → (play evs app).1 = [] ∧ app_ok (play evs app).2.
Proof.
  revert app. induction evs as [|ev evs IH]; intros app Hok; [done|].
  destruct (dispatch_ok ev app Hok) as (app' & Hd & Hok').
  cbn [play]. rewrite Hd. cbn [app_of uncaught_of].
  destruct (IH app' Hok') as [He Ha].
  destruct (play evs app') as [errs app'']. by simplify_eq/=.
Qed.

Lemma new_TodoApp_ok newTask due bAll bActive bCompleted :
  ∃ app, new_TodoApp newTask due bAll bActive bCompleted = Done app
         ∧ app_ok app.
Proof.
  unfold new_TodoApp. rewrite renderTodos_refreshed.
  eexists. split; [done|]. apply refreshed_ok; [apply inv_new|constructor|done].
Qed.
End between_events.


(** X13: whatever the browser functions do and whatever sequence of
    events follows the start of the application, no task in the store
    has an empty description: the listeners that write a description
    skip the write when the trimmed input is empty. *)
Theorem X13_descriptions_never_empty {host : Host}
    (newTask due : string) (bAll bActive bCompleted : bool)
    (evs : list Event) :
  ∃ app0,
    new_TodoApp newTask due bAll bActive bCompleted = Done app0
    ∧ Forall (λ t, task t ≠ "") (tasks (todoList (play evs app0).2)).
Proof.
  destruct (new_TodoApp_ok newTask due bAll bActive bCompleted)
    as (app0 & Hnew & Hok).
  exists app0. destruct (play_ok evs app0 Hok) as [_ Hok'].
  split; [done|]. apply Hok'.
Qed.

(** X14: after any sequence of events the rows of the list are, in
    order, the records that the current filter selects from the array
    of the store; every row carries the identifier and the completion
    flag of its record as they are in the store now; and every row that
    does not show the edit form shows the flag, the description and the
    due date that its record has now. *)
Theorem X14_page_shows_the_store {host : Host}
    (newTask due : string) (bAll bActive bCompleted : bool)
    (evs : list Event) :
  ∃ app0,
    new_TodoApp newTask due bAll bActive bCompleted = Done app0
    ∧ let app := (play evs app0).2 in
      let s := todoList app in
      row_todo <$> todoListElement app
      = filter (selected (currentFilter app) s) (stored s)
      ∧ ∀ row, row ∈ todoListElement app →
          let t := deref s (row_todo row) in
          dataset_id row = pretty (id t)
          ∧ class_completed row = completed t
          ∧ match content row with
            | Shown checkbox text date =>
                checkbox = completed t ∧ text = task t
                ∧ date = toLocaleDateString <$> dueDate t
            | Edited _ => True
            end.
Proof.
  destruct (new_TodoApp_ok newTask due bAll bActive bCompleted)
    as (app0 & Hnew & Hok).
  exists app0. destruct (play_ok evs app0 Hok) as [_ [_ _ [Hrows Hall] _]].
  split; [done|]. cbv zeta. split; [done|].
  intros row Hrow. rewrite Forall_forall in Hall.
  destruct (Hall row Hrow) as (Hd & Hc & Hshown). split_and!; [done|done|].
  destruct (content row) as [checkbox text date|form] eqn:Hcontent; [|done].
  rewrite Hshown in Hcontent. cbn [render_row content] in Hcontent.
  by simplify_eq.
Qed.

Section listeners.
Context {host : Host}.
Implicit Types (app : TodoApp) (s : Store) (r : ref) (row : Row) (n : Z).

Lemma app_ok_played newTask due bAll bActive bCompleted evs :
  app_ok (play evs (app_of (new_TodoApp newTask due bAll bActive bCompleted))).2.
Proof.
  destruct (new_TodoApp_ok newTask due bAll bActive bCompleted)
    as (app0 & -> & Hok).
  by apply play_ok.
Qed.

(** In a store with distinct identifiers, looking up the identifier of
    a stored record finds that record. *)
Lemma find_todo_of_stored s j r :
  inv s → stored s !! j = Some r →
  find_todo (id (deref s r)) s = Some (j, r).
Proof.
  intros [Hwf Hok] Hj.
  assert (id (deref s r) ∈ ids s) as [[i r'] Hf]%find_todo_is_Some
    by (apply stored_id_in_ids; by eapply list_elem_of_lookup_2).
  pose proof (find_todo_Some _ _ _ _ Hf) as (Hi & Hid & _).
  assert (∀ k x, stored s !! k = Some x → ids s !! k = Some (id (deref s x)))
    as Hids.
  { intros k x Hk. unfold ids, tasks. by rewrite !list_lookup_fmap, Hk. }
  assert (i = j) as ->.
  { eapply NoDup_lookup; [by apply ids_NoDup| |by apply Hids].
    rewrite (Hids _ _ Hi). by rewrite Hid. }
  by simplify_eq.
Qed.

Lemma string_length_app (a b : string) :
  String.length (a +:+ b) = (String.length a + String.length b)%nat.
Proof. induction a as [|c a IH]; simpl; [done|]. by rewrite IH. Qed.

Lemma two_digits (n : Z) :
  1 ≤ n ≤ 31 → String.length (padStart 2 "0"%char (pretty n)) = 2%nat.
Proof.
  intros Hn.
  assert (Forall (λ n, String.length (padStart 2 "0"%char (pretty n)) = 2%nat)
            (seqZ 1 31)) as Hall by by_computation.
  rewrite Forall_seqZ in Hall. apply Hall. lia.
Qed.

Lemma four_digits (y : Z) :
  1000 ≤ y ≤ 9999 → String.length (pretty y) = 4%nat.
Proof.
  intros Hy.
  assert (Forall (λ y, String.length (pretty y) = 4%nat) (seqZ 1000 9000))
    as Hall by by_computation.
  rewrite Forall_seqZ in Hall. apply Hall. lia.
Qed.

Lemma up_to_three_digits (y : Z) :
  0 ≤ y ≤ 999 → (String.length (pretty y) ≤ 3)%nat.
Proof.
  intros Hy.
  assert (Forall (λ y, (String.length (pretty y) ≤ 3)%nat) (seqZ 0 1000))
    as Hall by by_computation.
  rewrite Forall_seqZ in Hall. apply Hall. lia.
Qed.
End listeners.

(** X15: [handleAddTodo] ignores an input that is empty once trimmed:
    nothing at all changes.  Otherwise, on a well-formed store, it adds
    one task at the end, with the trimmed input as description, not
    completed, with the next identifier, and with the date built from
    the date input, or no date when that input is empty; it empties both
    inputs and renders, so the page shows the store. *)
Theorem X15_handleAddTodo {host : Host} (app : TodoApp) :
  wf (todoList app) →
  (trim (newTaskInput app) = "" → handleAddTodo app = Done app)
  ∧ (trim (newTaskInput app) ≠ "" →
     ∃ app',
       handleAddTodo app = Done app'
       ∧ tasks (todoList app')
         = tasks (todoList app)
           ++ [mkTodoItem (nextId (todoList app)) (trim (newTaskInput app)) false
                 (if bool_decide (dueDateInput app = "") then None
                  else Some (new_Date (dueDateInput app)))]
       ∧ newTaskInput app' = "" ∧ dueDateInput app' = ""
       ∧ currentFilter app' = currentFilter app
       ∧ view_agrees app').
Proof.
  intros Hwf. split; [apply handleAddTodo_blank|].
  intros Hb. eexists. split; [by apply handleAddTodo_filled|].
  set (s1 := store_of (addTodo _ _ _)).
  set (app1 := with_inputs "" "" (with_todoList s1 app)).
  assert (wf (todoList app1)) as Hwf1 by by apply addTodo_wf.
  destruct (refreshed_frame app1 Hwf1) as (_ & _ & Ht & _ & Hf & Hn & Hd & _).
  cbv zeta in *. rewrite Ht, Hf, Hn, Hd. split_and!; try done.
  - unfold app1, s1. cbn [with_inputs with_todoList todoList].
    rewrite addTodo_tasks by done. do 3 f_equal.
    unfold date_or_null. by repeat case_bool_decide.
  - by apply refreshed_view.
Qed.

(** The user types a padded description and clicks add, on a page that
    shows one task. *)
Lemma X15_handleAddTodo_witness :
  let app := (play (host := sample_host)
                [InputNewTask "Buy milk"; ClickAdd; InputNewTask "  Walk dog "]
                (app_of (new_TodoApp (host := sample_host) "" "" true false false))).2 in
  wf (todoList app)
  ∧ trim (Host := sample_host) (newTaskInput app) ≠ ""
  ∧ ∃ app',
      handleAddTodo (host := sample_host) app = Done app'
      ∧ tasks (todoList app')
        = [mkTodoItem 1 "Buy milk" false None; mkTodoItem 2 "Walk dog" false None]
      ∧ newTaskInput app' = "".
Proof.
  intros app.
  assert (wf (todoList app)) as Hwf by by_computation.
  assert (trim (Host := sample_host) (newTaskInput app) ≠ "") as Hb
    by by_computation.
  split_and!; [exact Hwf|exact Hb|].
  destruct (X15_handleAddTodo (host := sample_host) app Hwf) as [_ Hadd].
  destruct (Hadd Hb) as (app' & E & Ht & Hn & _).
  exists app'. split_and!; [exact E| |exact Hn].
  rewrite Ht. reflexivity.
Defined.

(** X16: given an identifier that no task of the store carries,
    [handleToggleTodo] and [handleRemoveTodo] catch the error of the
    store, log it, and leave the store and the page as they are; no
    exception escapes.  The save listener of an edit form has no such
    guard: the same error escapes it, and it leaves everything as it
    is, the edit form included. *)
Theorem X16_stale_identifier {host : Host} (app : TodoApp) (n : Z) :
  n ∉ ids (todoList app) →
  handleToggleTodo n app = Done (console_error (NotFound n) app)
  ∧ handleRemoveTodo n app = Done (console_error (NotFound n) app)
  ∧ todoList (console_error (NotFound n) app) = todoList app
  ∧ todoListElement (console_error (NotFound n) app) = todoListElement app
  ∧ console (console_error (NotFound n) app) = console app ++ [NotFound n]
  ∧ ∀ form r, id (deref (todoList app) r) = n → trim (editInput form) ≠ "" →
      handleSave form r app = Uncaught (NotFound n) app.
Proof.
  intros Hn. split_and!; try done.
  - by apply handleToggleTodo_missing.
  - by apply handleRemoveTodo_missing.
  - intros form r Hr Hb. unfold handleSave.
    rewrite bool_decide_eq_true_2 by done. rewrite Hr.
    rewrite updateTodoTask_update, update_with_missing by done.
    cbn [call]. by rewrite with_todoList_same.
Qed.

(** Identifier 7 on a page that shows one task. *)
Lemma X16_stale_identifier_witness :
  let app := (play (host := sample_host) [InputNewTask "Buy milk"; ClickAdd]
                (app_of (new_TodoApp (host := sample_host) "" "" true false false))).2 in
  (7 ∉ ids (todoList app))
  ∧ handleToggleTodo (host := sample_host) 7 app
    = Done (console_error (NotFound 7) app)
  ∧ handleRemoveTodo (host := sample_host) 7 app
    = Done (console_error (NotFound 7) app).
Proof.
  intros app.
  assert (7 ∉ ids (todoList app)) as Hn by by_computation.
  destruct (X16_stale_identifier (host := sample_host) app 7 Hn)
    as (H1 & H2 & _).
  split_and!; [exact Hn|exact H1|exact H2].
Defined.

(** X17: the listeners of an input edit, of an edit button, of a cancel
    button, of a filter button and of a key other than Enter never
    change a task: on a well-formed store they run to their end and
    leave the array of the store, the records, the task sequence, the
    counter and the console as they are. *)
Theorem X17_passive_events {host : Host} (ev : Event) (app : TodoApp) :
  wf (todoList app) → reads_only ev = true →
  ∃ app',
    dispatch ev app = Done app'
    ∧ stored (todoList app') = stored (todoList app)
    ∧ items (todoList app') = items (todoList app)
    ∧ tasks (todoList app') = tasks (todoList app)
    ∧ nextId (todoList app') = nextId (todoList app)
    ∧ console app' = console app.
Proof.
  intros Hwf Hev.
  assert (∀ app0, wf (todoList app0) → todoList app0 = todoList app →
            console app0 = console app →
            ∃ app', renderTodos app0 = Done app'
              ∧ stored (todoList app') = stored (todoList app)
              ∧ items (todoList app') = items (todoList app)
              ∧ tasks (todoList app') = tasks (todoList app)
              ∧ nextId (todoList app') = nextId (todoList app)
              ∧ console app' = console app) as Hrender.
  { intros app0 Hwf0 Hs Hc. rewrite renderTodos_refreshed. eexists.
    split; [done|].
    destruct (refreshed_frame app0 Hwf0) as (H1 & H2 & H3 & H4 & _ & _ & _ & H5 & _).
    cbv zeta in *. by rewrite H1, H2, H3, H4, H5, Hs, Hc. }
  destruct ev as [v|v|key| |f| |i|i|i|i v|i v|i|i]; try done; cbn [dispatch].
  - by eexists.
  - by eexists.
  - simpl in Hev. apply bool_decide_eq_true in Hev.
    rewrite bool_decide_eq_false_2 by done. by eexists.
  - unfold setFilter. by apply Hrender.
  - destruct (todoListElement app !! i) as [[r did cc [b text date|form]]|];
      by eexists.
  - destruct (todoListElement app !! i) as [[r did cc [b text date|form]]|];
      by eexists.
  - destruct (todoListElement app !! i) as [[r did cc [b text date|form]]|];
      by eexists.
  - destruct (todoListElement app !! i) as [[r did cc [b text date|form]]|];
      [by eexists| |by eexists].
    unfold handleCancel. by apply Hrender.
Qed.

(** Choosing the filter [completed] on a page that shows one task. *)
Lemma X17_passive_events_witness :
  let app := (play (host := sample_host) [InputNewTask "Buy milk"; ClickAdd]
                (app_of (new_TodoApp (host := sample_host) "" "" true false false))).2 in
  wf (todoList app)
  ∧ reads_only (ClickFilter Completed) = true
  ∧ ∃ app',
      dispatch (host := sample_host) (ClickFilter Completed) app = Done app'
      ∧ tasks (todoList app') = [mkTodoItem 1 "Buy milk" false None]
      ∧ todoListElement app' = [].
Proof.
  intros app.
  assert (wf (todoList app)) as Hwf by by_computation.
  split_and!; [exact Hwf|reflexivity|].
  destruct (X17_passive_events (host := sample_host)
              (ClickFilter Completed) app Hwf eq_refl)
    as (app' & E & _ & _ & Ht & _).
  exists app'. split_and!; [exact E|by rewrite Ht|].
  vm_compute in E. by simplify_eq.
Defined.

(** X18: on a page in agreement with its store, a click on the save
    button of an edit form whose trimmed text is empty changes nothing.
    Otherwise both store calls succeed: the record of the row gets the
    trimmed text as description and the date built from the date input
    of the form, or no date when that input is empty; it keeps its
    identifier and its flag; every other task is as before; and the
    page is rendered again, so no row shows an edit form any more. *)
Theorem X18_save {host : Host} (app : TodoApp) (i : nat) (row : Row)
    (form : EditForm) :
  app_ok app → todoListElement app !! i = Some row →
  content row = Edited form →
  (trim (editInput form) = "" → dispatch (ClickSave i) app = Done app)
  ∧ (trim (editInput form) ≠ "" →
     ∃ app' j,
       dispatch (ClickSave i) app = Done app'
       ∧ stored (todoList app) !! j = Some (row_todo row)
       ∧ tasks (todoList app')
         = <[j := let t := deref (todoList app) (row_todo row) in
                  mkTodoItem (id t) (trim (editInput form)) (completed t)
                    (date_or_null (editDateInput form))]>
             (tasks (todoList app))
       ∧ Forall (λ row', ∃ b text date, content row' = Shown b text date)
                (todoListElement app')
       ∧ app_ok app').
Proof.
  intros Hok Hi Hc. pose proof Hok as [Hinv Ht Hv Hcon].
  destruct row as [r did cc c]. cbn [content row_todo] in *. subst c.
  cbn [dispatch]. rewrite Hi. split; [apply handleSave_blank|].
  intros Hb.
  pose proof (row_in_stored _ _ _ Hv Hi) as Hr. cbn [row_todo] in Hr.
  apply list_elem_of_lookup_1 in Hr as [j Hj].
  set (s := todoList app) in *. set (t := deref s r).
  pose proof (find_todo_of_stored s j r Hinv Hj) as Hf.
  set (s1 := write_item r (set_task (trim (editInput form)) t) s).
  assert (updateTodoTask (id t) (trim (editInput form)) s = Ok tt s1) as E1
    by (rewrite updateTodoTask_update; by apply update_with_found with j).
  assert (r < length (items s))%nat as Hlt
    by (eapply wf_lookup_lt; [apply Hinv|done]).
  assert (deref s1 r = set_task (trim (editInput form)) t) as Hd1
    by by apply deref_write_item_eq.
  assert (find_todo (id t) s1 = Some (j, r)) as Hf1
    by (unfold s1, t; by rewrite (find_todo_write_item (set_task _))).
  set (d := date_or_null (editDateInput form)).
  set (s2 := write_item r (set_dueDate d (deref s1 r)) s1).
  assert (updateTodoDueDate (id (deref s1 r)) d s1 = Ok tt s2) as E2.
  { rewrite Hd1. cbn [set_task id]. rewrite updateTodoDueDate_update.
    by rewrite (update_with_found _ _ _ _ _ Hf1). }
  assert (wf s1) as Hwf1 by (apply wf_write_item; apply Hinv).
  assert (tasks s2 = <[j := mkTodoItem (id t) (trim (editInput form))
                                        (completed t) d]> (tasks s)) as Ht2.
  { unfold s2. rewrite (tasks_write_item s1 j r), Hd1 by done.
    unfold s1. rewrite (tasks_write_item s j r) by (done || apply Hinv).
    by rewrite list_insert_insert_eq. }
  destruct (handleSave_ok form i _ app Hok Hi) as (app' & E & Hok').
  exists app', j. split; [done|]. split; [done|].
  cbn [row_todo] in E. unfold handleSave in E.
  rewrite bool_decide_eq_true_2 in E by done. fold s t in E.
  rewrite E1 in E. cbn [call with_todoList todoList] in E. fold d in E.
  rewrite E2 in E. cbn [call] in E. rewrite renderTodos_refreshed in E.
  injection E as <-.
  split_and!; [|  |done].
  - destruct (refreshed_frame (with_todoList s2 (with_todoList s1 app)))
      as (_ & _ & -> & _); [by apply wf_write_item|done].
  - unfold refreshed. cbn [with_rows todoListElement].
    apply Forall_fmap, Forall_forall. intros r' _. simpl. by eexists _, _, _.
Qed.

(** The user opens the edit form of the only task, types a padded
    description and a date, and clicks save. *)
Lemma X18_save_witness :
  let app := (play (host := sample_host)
                [InputNewTask "Buy milk"; ClickAdd; ClickEdit 0;
                 InputEdit 0 " Buy oat milk "; InputEditDate 0 "2024-01-01"]
                (app_of (new_TodoApp (host := sample_host) "" "" true false false))).2 in
  let row := mkRow 0%nat "1" false (Edited (mkEditForm " Buy oat milk " "2024-01-01")) in
  app_ok (host := sample_host) app
  ∧ todoListElement app !! 0%nat = Some row
  ∧ ∃ app',
      dispatch (host := sample_host) (ClickSave 0) app = Done app'
      ∧ tasks (todoList app')
        = [mkTodoItem 1 "Buy oat milk" false (Some 1704067200000)]
      ∧ todoListElement app'
        = [mkRow 0%nat "1" false (Shown false "Buy oat milk" (Some "1/1/2024"))].
Proof.
  intros app row.
  assert (app_ok (host := sample_host) app) as Hok by apply app_ok_played.
  assert (todoListElement app !! 0%nat = Some row) as Hi by reflexivity.
  split_and!; [exact Hok|exact Hi|].
  destruct (X18_save (host := sample_host) app 0 row _ Hok Hi eq_refl)
    as [_ Hsave].
  destruct Hsave as (app' & j & E & _ & Ht & _); [by_computation|].
  exists app'. split_and!; [exact E| |].
  - rewrite Ht. vm_compute in E. by simplify_eq.
  - vm_compute in E. by simplify_eq.
Defined.

(** X19: on a page in agreement with its store, a change of the
    checkbox of a row negates the [completed] flag of the record of
    that row, and of no other record; after the rendering that follows,
    the record is still on the page exactly when the filter is [all]:
    under [active] and under [completed] it has left the page. *)
Theorem X19_checkbox {host : Host} (app : TodoApp) (i : nat) (row : Row)
    (b : bool) (text : string) (date : option string) :
  app_ok app → todoListElement app !! i = Some row →
  content row = Shown b text date →
  ∃ app' j,
    dispatch (ChangeCheckbox i) app = Done app'
    ∧ stored (todoList app) !! j = Some (row_todo row)
    ∧ tasks (todoList app')
      = <[j := toggle (deref (todoList app) (row_todo row))]>
          (tasks (todoList app))
    ∧ currentFilter app' = currentFilter app
    ∧ (row_todo row ∈ row_todo <$> todoListElement app'
       ↔ currentFilter app = All)
    ∧ app_ok app'.
Proof.
  intros Hok Hi Hc. pose proof Hok as [Hinv Ht Hv Hcon].
  destruct row as [r did cc c]. cbn [content row_todo] in *. subst c.
  destruct (dispatch_ok (ChangeCheckbox i) app Hok) as (app' & E & Hok').
  pose proof (row_in_stored _ _ _ Hv Hi) as Hr. cbn [row_todo] in Hr.
  assert (selected (currentFilter app) (todoList app) r) as Hsel.
  { destruct Hv as [Hrows _].
    assert (r ∈ row_todo <$> todoListElement app) as Hin.
    { apply list_elem_of_fmap. exists (mkRow r did cc (Shown b text date)).
      split; [done|]. by eapply list_elem_of_lookup_2. }
    rewrite Hrows in Hin. by apply list_elem_of_filter in Hin as [? _]. }
  apply list_elem_of_lookup_1 in Hr as [j Hj].
  set (s := todoList app) in *.
  pose proof (find_todo_of_stored s j r Hinv Hj) as Hf.
  assert (r < length (items s))%nat as Hlt
    by (eapply wf_lookup_lt; [apply Hinv|done]).
  set (s1 := write_item r (toggle (deref s r)) s).
  assert (toggleTodo (id (deref s r)) s = Ok tt s1) as E1
    by (rewrite toggleTodo_update; by apply update_with_found with j).
  exists app', j. split; [done|]. split; [done|].
  cbn [dispatch] in E. rewrite Hi in E.
  cbn [set_content with_rows todoList] in E. fold s in E.
  unfold handleToggleTodo in E.
  change (todoList (set_content i (Shown (negb b) text date) app)) with s in E.
  rewrite E1 in E. cbn [call try_catch] in E.
  rewrite renderTodos_refreshed in E. cbn [try_catch] in E.
  injection E as <-.
  match goal with |- context [refreshed ?a] => set (app1 := a) in * end.
  assert (wf (todoList app1)) as Hwf1 by (apply wf_write_item; apply Hinv).
  destruct (refreshed_frame app1 Hwf1) as (Hst & Hit & Hts & _ & Hfl & _).
  cbv zeta in *. rewrite Hts, Hfl.
  split_and!; [| done | | done].
  - unfold app1. cbn [with_todoList todoList]. unfold s1.
    apply tasks_write_item; [apply Hinv|done].
  - destruct Hok' as [_ _ [Hrows _] _]. rewrite Hrows, Hst, Hfl.
    rewrite list_elem_of_filter.
    assert (r ∈ stored (todoList app1)) as Hin
      by by eapply list_elem_of_lookup_2.
    assert (completed (deref (todoList (refreshed app1)) r)
            = negb (completed (deref s r))) as Hflag.
    { rewrite (deref_items (todoList app1)) by done.
      unfold app1. cbn [with_todoList todoList]. unfold s1.
      by rewrite deref_write_item_eq. }
    assert (currentFilter app1 = currentFilter app) as -> by done.
    revert Hsel.
    destruct (currentFilter app); cbn [selected]; rewrite ?Hflag;
      intros Hsel; rewrite ?Hsel; cbn [negb];
      (split; [intros [? ?]|intros ?]; done).
Qed.

(** Completing the first of two tasks under the filter [active]. *)
Lemma X19_checkbox_witness :
  let app := (play (host := sample_host)
                [InputNewTask "Buy milk"; ClickAdd; InputNewTask "Walk dog";
                 KeyPress "Enter"; ClickFilter Active]
                (app_of (new_TodoApp (host := sample_host) "" "" true false false))).2 in
  let row := mkRow 0%nat "1" false (Shown false "Buy milk" None) in
  app_ok (host := sample_host) app
  ∧ todoListElement app !! 0%nat = Some row
  ∧ ∃ app',
      dispatch (host := sample_host) (ChangeCheckbox 0) app = Done app'
      ∧ tasks (todoList app')
        = [mkTodoItem 1 "Buy milk" true None; mkTodoItem 2 "Walk dog" false None]
      ∧ todoListElement app'
        = [mkRow 1%nat "2" false (Shown false "Walk dog" None)].
Proof.
  intros app row.
  assert (app_ok (host := sample_host) app) as Hok by apply app_ok_played.
  assert (todoListElement app !! 0%nat = Some row) as Hi by reflexivity.
  split_and!; [exact Hok|exact Hi|].
  destruct (X19_checkbox (host := sample_host) app 0 row _ _ _ Hok Hi eq_refl)
    as (app' & j & E & _ & Ht & _).
  exists app'. split_and!; [exact E| |].
  - rewrite Ht. vm_compute in E. by simplify_eq.
  - vm_compute in E. by simplify_eq.
Defined.

(** X20: for a date whose local month and day of month are in their
    ranges, the value that [handleEditTodo] gives the date input of the
    edit form is the year, a dash, the month counted from 1 and the day,
    month and day padded with a zero to two digits.  The year is not
    padded: the value has the ten characters of a date input value when
    the year has four digits, and fewer for the years 0 to 999. *)
Theorem X20_date_input_value {host : Host} (d : Date) :
  0 ≤ getMonth d ≤ 11 → 1 ≤ getDate d ≤ 31 →
  ∃ month day,
    date_input_value d
    = pretty (getFullYear d) +:+ "-" +:+ month +:+ "-" +:+ day
    ∧ String.length month = 2%nat ∧ String.length day = 2%nat
    ∧ month = (if bool_decide (getMonth d + 1 < 10)
               then "0" +:+ pretty (getMonth d + 1)
               else pretty (getMonth d + 1))
    ∧ day = (if bool_decide (getDate d < 10)
             then "0" +:+ pretty (getDate d) else pretty (getDate d))
    ∧ (1000 ≤ getFullYear d ≤ 9999 →
       String.length (date_input_value d) = 10%nat)
    ∧ (0 ≤ getFullYear d ≤ 999 →
       (String.length (date_input_value d) < 10)%nat).
Proof.
  intros Hm Hd.
  assert (∀ n, 1 ≤ n ≤ 31 →
            padStart 2 "0"%char (pretty n)
            = if bool_decide (n < 10) then "0" +:+ pretty n else pretty n)
    as Hpad.
  { intros n Hn.
    assert (Forall (λ n, padStart 2 "0"%char (pretty n)
                         = if bool_decide (n < 10) then "0" +:+ pretty n
                           else pretty n) (seqZ 1 31)) as Hall
      by by_computation.
    rewrite Forall_seqZ in Hall. apply Hall. lia. }
  exists (padStart 2 "0"%char (pretty (getMonth d + 1))),
         (padStart 2 "0"%char (pretty (getDate d))).
  pose proof (two_digits (getMonth d + 1)) as Hlm.
  pose proof (two_digits (getDate d)) as Hld.
  split_and!.
  - done.
  - apply Hlm. lia.
  - by apply Hld.
  - apply Hpad. lia.
  - by apply Hpad.
  - intros Hy. unfold date_input_value.
    rewrite !string_length_app, Hlm, Hld, (four_digits _ Hy) by lia. done.
  - intros Hy. unfold date_input_value.
    rewrite !string_length_app, Hlm, Hld by lia.
    pose proof (up_to_three_digits _ Hy). simpl. lia.
Qed.

(** A host in which every date is 1 January 2024. *)
Lemma X20_date_input_value_witness :
  0 ≤ getMonth (Host := sample_host) 1704067200000 ≤ 11
  ∧ 1 ≤ getDate (Host := sample_host) 1704067200000 ≤ 31
  ∧ date_input_value (host := sample_host) 1704067200000 = "2024-01-01"
  ∧ String.length (date_input_value (host := sample_host) 1704067200000)
    = 10%nat.
Proof.
  assert (0 ≤ getMonth (Host := sample_host) 1704067200000 ≤ 11) as Hm
    by (vm_compute; split; discriminate).
  assert (1 ≤ getDate (Host := sample_host) 1704067200000 ≤ 31) as Hd
    by (vm_compute; split; discriminate).
  destruct (X20_date_input_value (host := sample_host) 1704067200000 Hm Hd)
    as (month & day & E & _ & _ & -> & -> & Hlen & _).
  split; [exact Hm|]. split; [exact Hd|]. split; [by rewrite E|].
  apply Hlen. vm_compute. split; discriminate.
Defined.

(** X21: on a well-formed store [setFilter] runs to its end; the filter
    is the one given; of the three filter buttons exactly the one of
    that filter is highlighted; the rows are the records the filter
    selects, in the order of the store; the tasks, the counter and the
    two inputs are as before. *)
Theorem X21_setFilter {host : Host} (f : Filter) (app : TodoApp) :
  wf (todoList app) →
  ∃ app',
    setFilter f app = Done app'
    ∧ currentFilter app' = f
    ∧ (filterAllButton app' = true ↔ f = All)
    ∧ (filterActiveButton app' = true ↔ f = Active)
    ∧ (filterCompletedButton app' = true ↔ f = Completed)
    ∧ row_todo <$> todoListElement app'
      = filter (selected f (todoList app)) (stored (todoList app))
    ∧ view_agrees app'
    ∧ tasks (todoList app') = tasks (todoList app)
    ∧ nextId (todoList app') = nextId (todoList app)
    ∧ newTaskInput app' = newTaskInput app
    ∧ dueDateInput app' = dueDateInput app.
Proof.
  intros Hwf. unfold setFilter. rewrite renderTodos_refreshed.
  eexists. split; [done|].
  match goal with |- context [refreshed ?a] => set (app1 := a) in * end.
  assert (wf (todoList app1)) as Hwf1 by done.
  destruct (refreshed_frame app1 Hwf1)
    as (_ & _ & Ht & Hn & Hf & Hi1 & Hi2 & _).
  cbv zeta in *. rewrite Ht, Hn, Hf, Hi1, Hi2.
  split_and!; try done.
  - unfold refreshed, app1; simpl. apply bool_decide_eq_true.
  - unfold refreshed, app1; simpl. apply bool_decide_eq_true.
  - unfold refreshed, app1; simpl. apply bool_decide_eq_true.
  - unfold refreshed. cbn [with_rows todoListElement].
    rewrite <-list_fmap_compose. by rewrite list_fmap_id.
  - by apply refreshed_view.
Qed.

(** Choosing [active] with one task completed and one not. *)
Lemma X21_setFilter_witness :
  let app := (play (host := sample_host)
                [InputNewTask "Buy milk"; ClickAdd; InputNewTask "Walk dog";
                 ClickAdd; ChangeCheckbox 0]
                (app_of (new_TodoApp (host := sample_host) "" "" true false false))).2 in
  wf (todoList app)
  ∧ ∃ app',
      setFilter (host := sample_host) Active app = Done app'
      ∧ filterAllButton app' = false
      ∧ filterActiveButton app' = true
      ∧ todoListElement app'
        = [mkRow 1%nat "2" false (Shown false "Walk dog" None)].
Proof.
  intros app.
  assert (wf (todoList app)) as Hwf by by_computation.
  split; [exact Hwf|].
  destruct (X21_setFilter (host := sample_host) Active app Hwf)
    as (app' & E & _).
  exists app'. split; [exact E|].
  vm_compute in E. by simplify_eq.
Defined.

(** X22: on a page in agreement with its store, a click on the delete
    button of a row takes the record of that row, and no other, out of
    the store and off the page; the remaining tasks and the remaining
    rows keep their order. *)
Theorem X22_delete {host : Host} (app : TodoApp) (i : nat) (row : Row)
    (b : bool) (text : string) (date : option string) :
  app_ok app → todoListElement app !! i = Some row →
  content row = Shown b text date →
  ∃ app' j,
    dispatch (ClickDelete i) app = Done app'
    ∧ stored (todoList app) !! j = Some (row_todo row)
    ∧ stored (todoList app') = delete j (stored (todoList app))
    ∧ tasks (todoList app') = delete j (tasks (todoList app))
    ∧ row_todo <$> todoListElement app'
      = filter (λ r, r ≠ row_todo row) (row_todo <$> todoListElement app)
    ∧ (row_todo row ∉ stored (todoList app'))
    ∧ app_ok app'.
Proof.
  intros Hok Hi Hc. pose proof Hok as [Hinv Ht Hv Hcon].
  destruct row as [r did cc c]. cbn [content row_todo] in *. subst c.
  destruct (dispatch_ok (ClickDelete i) app Hok) as (app' & E & Hok').
  pose proof (row_in_stored _ _ _ Hv Hi) as Hr. cbn [row_todo] in Hr.
  apply list_elem_of_lookup_1 in Hr as [j Hj].
  set (s := todoList app) in *.
  pose proof (find_todo_of_stored s j r Hinv Hj) as Hf.
  pose proof Hinv as [Hwf _].
  pose proof (removeTodo_stored _ _ _ _ Hwf Hf) as Hst1.
  pose proof (removeTodo_tasks _ _ _ _ Hwf Hf) as Hts1.
  pose proof (removeTodo_wf (id (deref s r)) s Hwf) as Hwf1.
  set (s1 := store_of (removeTodo (id (deref s r)) s)) in *.
  exists app', j. split; [done|]. split; [done|].
  cbn [dispatch] in E. rewrite Hi in E. fold s in E.
  rewrite handleRemoveTodo_found in E
    by (apply stored_id_in_ids; by eapply list_elem_of_lookup_2).
  fold s s1 in E. injection E as <-.
  destruct (refreshed_frame (with_todoList s1 app) Hwf1)
    as (Hst & Hit & Hts & _ & Hfl & _).
  cbv zeta in *. rewrite Hst, Hts.
  cbn [with_todoList todoList currentFilter] in *.
  split_and!; try done.
  - destruct Hok' as [_ _ [Hrows _] _]. rewrite Hrows, Hst, Hfl.
    destruct Hv as [-> _]. fold s. rewrite Hst1.
    rewrite <-(filter_ne_delete (stored s) j r) by (by apply wf_nodup || done).
    rewrite !list_filter_filter. apply list_filter_iff. intros r'.
    assert (items (todoList (refreshed (with_todoList s1 app))) = items s)
      as Hitems by (rewrite Hit; apply removeTodo_frame).
    rewrite (selected_items _ s _ r' Hitems). tauto.
  - rewrite Hst1. apply NoDup_not_elem_of_delete; [by apply wf_nodup|done].
Qed.

(** Deleting the first of two tasks. *)
Lemma X22_delete_witness :
  let app := (play (host := sample_host)
                [InputNewTask "Buy milk"; ClickAdd; InputNewTask "Walk dog";
                 ClickAdd]
                (app_of (new_TodoApp (host := sample_host) "" "" true false false))).2 in
  let row := mkRow 0%nat "1" false (Shown false "Buy milk" None) in
  app_ok (host := sample_host) app
  ∧ todoListElement app !! 0%nat = Some row
  ∧ ∃ app',
      dispatch (host := sample_host) (ClickDelete 0) app = Done app'
      ∧ tasks (todoList app') = [mkTodoItem 2 "Walk dog" false None]
      ∧ todoListElement app'
        = [mkRow 1%nat "2" false (Shown false "Walk dog" None)].
Proof.
  intros app row.
  assert (app_ok (host := sample_host) app) as Hok by apply app_ok_played.
  assert (todoListElement app !! 0%nat = Some row) as Hi by reflexivity.
  split_and!; [exact Hok|exact Hi|].
  destruct (X22_delete (host := sample_host) app 0 row _ _ _ Hok Hi eq_refl)
    as (app' & j & E & _ & _ & Ht & _).
  exists app'. split_and!; [exact E| |].
  - rewrite Ht. vm_compute in E. by simplify_eq.
  - vm_compute in E. by simplify_eq.
Defined.

(** X23: on a well-formed store [handleClearCompleted] runs to its end;
    afterwards the store holds the tasks that were not completed, in
    their order, and no completed task; the page shows none of the
    removed records: all remaining records under [all] and [active],
    no row at all under [completed]. *)
Theorem X23_handleClearCompleted {host : Host} (app : TodoApp) :
  wf (todoList app) →
  ∃ app',
    handleClearCompleted app = Done app'
    ∧ tasks (todoList app')
      = filter (λ t, completed t = false) (tasks (todoList app))
    ∧ Forall (λ t, completed t = false) (tasks (todoList app'))
    ∧ row_todo <$> todoListElement app'
      = (if bool_decide (currentFilter app = Completed) then []
         else stored (todoList app'))
    ∧ view_agrees app'.
Proof.
  intros Hwf. rewrite handleClearCompleted_refreshed. eexists. split; [done|].
  set (s1 := store_of (clearCompleted (todoList app))).
  assert (wf s1) as Hwf1 by by apply clearCompleted_wf.
  assert (tasks s1 = filter (λ t, completed t = false) (tasks (todoList app)))
    as Ht1.
  { unfold tasks at 1. unfold s1. rewrite clearCompleted_stored.
    by apply deref_filter_completed. }
  assert (∀ r, r ∈ stored s1 → completed (deref s1 r) = false) as Hall.
  { intros r. unfold s1 at 1. rewrite clearCompleted_stored.
    by intros [? _]%list_elem_of_filter. }
  pose proof (refreshed_view (with_todoList s1 app) Hwf1) as Hv.
  destruct (refreshed_frame (with_todoList s1 app) Hwf1)
    as (Hst & Hit & Hts & _ & Hfl & _).
  cbv zeta in *. rewrite Hts. cbn [with_todoList todoList currentFilter] in *.
  split_and!; try done.
  - rewrite Ht1. apply Forall_forall. by intros t [? _]%list_elem_of_filter.
  - destruct Hv as [-> _]. rewrite Hst, Hfl.
    assert (∀ r, r ∈ stored s1 →
              completed (deref (todoList (refreshed (with_todoList s1 app))) r)
              = false) as Hall'.
    { intros r Hr. rewrite (deref_items s1) by done. by apply Hall. }
    case_bool_decide as Hc.
    + rewrite Hc. apply filter_none. intros r Hr. cbn [selected].
      rewrite (Hall' r Hr). done.
    + apply filter_all. intros r Hr.
      destruct (currentFilter app); cbn [selected];
        [done|by apply Hall'|done].
Qed.

(** Clearing with one task completed and one not. *)
Lemma X23_handleClearCompleted_witness :
  let app := (play (host := sample_host)
                [InputNewTask "Buy milk"; ClickAdd; InputNewTask "Walk dog";
                 ClickAdd; ChangeCheckbox 0]
                (app_of (new_TodoApp (host := sample_host) "" "" true false false))).2 in
  wf (todoList app)
  ∧ ∃ app',
      handleClearCompleted (host := sample_host) app = Done app'
      ∧ tasks (todoList app') = [mkTodoItem 2 "Walk dog" false None]
      ∧ row_todo <$> todoListElement app' = [1%nat].
Proof.
  intros app.
  assert (wf (todoList app)) as Hwf by by_computation.
  split; [exact Hwf|].
  destruct (X23_handleClearCompleted (host := sample_host) app Hwf)
    as (app' & E & Ht & _).
  exists app'. split_and!; [exact E|by rewrite Ht|].
  vm_compute in E. by simplify_eq.
Defined.
